(** * Bayesian (Thompson sampling) Bernoulli bandit: bandit.py

    A shallow embedding of [bandit.py] and the properties its design
    document states about it.

    Modelling choices.
    - Python integers are [Z].  The [np.int] counters of the two structured
      arrays are [Z] as well: every counter is bounded by the number of
      rounds, which is the length of an array that was allocated.
    - An [np.float] value (a probability, a posterior draw, a regret) is
      the rational [Q] it denotes.  Comparisons are exact; the result of
      an addition or a subtraction is the exact result rounded to a
      float, with the rounding a parameter ([Binary64]) of which only
      what holds of binary64 rounding is assumed.
    - The module-level generator [np.random] is an explicit state of an
      abstract type, threaded through every call that draws from it, with
      the three distributions the script uses as its operations.
    - Exceptions are values of an error monad.
    - numpy arrays are lists, read and written through [getitem] and
      [setitem], which raise [IndexError] outside the array. *)

From Stdlib Require Import ZArith QArith Qround Lia Lqa List.
From stdpp Require Import base numbers list.

Local Open Scope Z_scope.

(** ** Exceptions *)

Inductive exn : Type :=
| ValueError
| IndexError.

Inductive result (A : Type) : Type :=
| Ok (a : A)
| Raise (e : exn).

Arguments Ok {A} a.
Arguments Raise {A} e.

Definition bind {A B : Type} (m : result A) (k : A -> result B) : result B :=
  match m with
  | Ok a => k a
  | Raise e => Raise e
  end.

Declare Scope result_scope.
Delimit Scope result_scope with result.
Notation "'do' x <- m ; k" := (bind m (fun x => k))
  (at level 10, x pattern, m at level 100, k at level 200) : result_scope.
Local Open Scope result_scope.

(** ** The part of numpy the script uses *)

(** [a[i]] on a one-dimensional array: a negative index counts from the
    end, anything outside [[-len, len)] raises. *)
Definition getitem {A : Type} (a : list A) (i : Z) : result A :=
  let n := Z.of_nat (length a) in
  let j := if i <? 0 then i + n else i in
  if (j <? 0) || (n <=? j) then Raise IndexError
  else match a !! Z.to_nat j with
       | Some x => Ok x
       | None => Raise IndexError
       end.

(** [a[i] = x]. *)
Definition setitem {A : Type} (a : list A) (i : Z) (x : A) : result (list A) :=
  let n := Z.of_nat (length a) in
  let j := if i <? 0 then i + n else i in
  if (j <? 0) || (n <=? j) then Raise IndexError
  else Ok (<[Z.to_nat j := x]> a).

(** [a[i][field] op= v]: read the record, change it, store it back. *)
Definition moditem {A : Type} (a : list A) (i : Z) (f : A -> A) : result (list A) :=
  do x <- getitem a i;
  setitem a i (f x).

(** [np.zeros((n,), dtype)]. *)
Definition zeros {A : Type} (zero : A) (n : Z) : list A :=
  replicate (Z.to_nat n) zero.

(** [range(n)]. *)
Definition range (n : Z) : list Z :=
  map Z.of_nat (seq 0 (Z.to_nat n)).

Definition Qlt_bool (x y : Q) : bool := negb (Qle_bool y x).

(** [argmax] and [amax] are numpy's, modelled as numpy documents them: of
    several occurrences of the maximum, [argmax] returns the index of the
    first.

    The scan behind [argmax]: [mp] is the largest value so far, [max_ind]
    its position, [i] the position of the head of [ip].  A later element
    replaces the current one only when it is strictly larger. *)
Fixpoint argmax_scan (mp : Q) (max_ind i : Z) (ip : list Q) : Z :=
  match ip with
  | [] => max_ind
  | x :: rest =>
      if Qlt_bool mp x then argmax_scan x i (i + 1) rest
      else argmax_scan mp max_ind (i + 1) rest
  end.

(** [a.argmax(axis=0)]; an empty array raises. *)
Definition argmax (a : list Q) : result Z :=
  match a with
  | [] => Raise ValueError
  | x :: rest => Ok (argmax_scan x 0 1 rest)
  end.

Fixpoint amax_scan (mp : Q) (ip : list Q) : Q :=
  match ip with
  | [] => mp
  | x :: rest => if Qlt_bool mp x then amax_scan x rest else amax_scan mp rest
  end.

(** [np.amax(a)]; an empty array raises. *)
Definition amax (a : list Q) : result Q :=
  match a with
  | [] => Raise ValueError
  | x :: rest => Ok (amax_scan x rest)
  end.

(** ** Floating point

    [rnd] takes a rational to the float that stands for it.  It never
    reverses an order, leaves a float as it is, and every integer up to
    [2 ^ 53] is a float.  The values of the program stay far below the
    largest float, so overflow is left out. *)
Class Binary64 : Type := {
  rnd : Q -> Q;
  rnd_le : forall x y : Q, (x <= y)%Q -> (rnd x <= rnd y)%Q;
  rnd_rnd : forall x : Q, (rnd (rnd x) == rnd x)%Q;
  rnd_Z : forall n : Z, 0 <= n <= 2 ^ 53 -> (rnd (inject_Z n) == inject_Z n)%Q
}.

(** [x + y] and [x - y] on floats. *)
Definition fadd `{Binary64} (x y : Q) : Q := rnd (x + y).
Definition fsub `{Binary64} (x y : Q) : Q := rnd (x - y).

(** ** The random source

    [np.random] as a state [G] and the draws the script asks of it.
    [random_double] is one uniform draw, a float that lies in the
    half-open unit interval; [binomial n p] and [beta a b] are one draw
    each from the named distribution. *)
Class NumpyRandom `{Binary64} (G : Type) : Type := {
  random_double : G -> Q * G;
  binomial : Z -> Q -> G -> Z * G;
  beta : Z -> Z -> G -> Q * G;
  random_double_range :
    forall g : G, (0 <= fst (random_double g))%Q /\ (fst (random_double g) < 1)%Q;
  random_double_float :
    forall g : G, (rnd (fst (random_double g)) == fst (random_double g))%Q
}.

(** ** The structured arrays *)

Module BanditStat.
Record t : Type := mk { wins : Z; losses : Z }.
Definition zero : t := mk 0 0.
Definition add_win (s : t) : t := mk (wins s + 1) (losses s).
Definition add_loss (s : t) : t := mk (wins s) (losses s + 1).
End BanditStat.

Module OverallStat.
Record t : Type := mk { bandit : Z; wins : Z; losses : Z; regret : Q }.
Definition zero : t := mk 0 0 0 0%Q.
Definition set_bandit (b : Z) (r : t) : t :=
  mk b (wins r) (losses r) (regret r).
Definition add_win (r : t) : t :=
  mk (bandit r) (wins r + 1) (losses r) (regret r).
Definition add_loss (r : t) : t :=
  mk (bandit r) (wins r) (losses r + 1) (regret r).
Definition add_regret `{Binary64} (x : Q) (r : t) : t :=
  mk (bandit r) (wins r) (losses r) (fadd (regret r) x).
End OverallStat.

(** ** The program *)

(** The fields of a [Bandits] object. *)
Record Bandits : Type := { bandits : list Q; max_prob : Q }.

Definition bandits_size (self : Bandits) : Z := Z.of_nat (length (bandits self)).

(** The simulation's variables between two rounds. *)
Definition loop_state (G : Type) : Type :=
  (list BanditStat.t * list OverallStat.t * G)%type.

Section Program.
Context `{Binary64} {G : Type} `{!NumpyRandom G}.

(** [np.random.random_sample(size)]: [size] uniform draws, in order. *)
Fixpoint random_sample (size : nat) (g : G) : list Q * G :=
  match size with
  | O => ([], g)
  | S n =>
      let '(x, g1) := random_double g in
      let '(xs, g2) := random_sample n g1 in
      (x :: xs, g2)
  end.

(** [np.vectorize(f, otypes=...)] on a one-dimensional array: [f] is
    called on each element in index order, the results collected. *)
Definition vectorize {A B : Type} (f : A -> G -> B * G) (a : list A) (g : G)
  : list B * G :=
  fold_left (fun acc x => let '(ys, g1) := acc in
                          let '(y, g2) := f x g1 in
                          (ys ++ [y], g2))
            a ([], g).

(** [Bandits.__init__]. *)
Definition Bandits_init (size : Z) (g : G) : result (Bandits * G) :=
  if size <? 2 then Raise ValueError
  else
    let '(arr, g1) := random_sample (Z.to_nat size) g in
    do m <- amax arr;
    Ok ({| bandits := arr; max_prob := m |}, g1).

(** [Bandits.select]. *)
Definition Bandits_select (self : Bandits) (number : Z) (g : G)
  : result (bool * G) :=
  if (number <? 0) || (number >=? bandits_size self) then Ok (false, g)
  else
    do p <- getitem (bandits self) number;
    let '(r, g1) := binomial 1 p g in
    Ok (r =? 1, g1).

(** [Bandits.regret]. *)
Definition Bandits_regret (self : Bandits) (number : Z) : result Q :=
  if (number <? 0) || (number >? bandits_size self) then Ok (max_prob self)
  else
    do p <- getitem (bandits self) number;
    Ok (fsub (max_prob self) p).

(** The function wrapped by [np.vectorize]. *)
Definition draw_bandit_distribution_1 (stats : BanditStat.t) (g : G) : Q * G :=
  beta (BanditStat.wins stats + 1) (BanditStat.losses stats + 1) g.

Definition draw_bandit_distribution (stats : list BanditStat.t) (g : G)
  : list Q * G :=
  vectorize draw_bandit_distribution_1 stats g.

(** The body of the [for] loop. *)
Definition loop_body (the_bandits : Bandits) (iteration : Z)
    (st : loop_state G) : result (loop_state G) :=
  let '(banditStats, overallStats, g) := st in
  do overallStats <-
    (if negb (iteration =? 0) then
       do prev <- getitem overallStats (iteration - 1);
       setitem overallStats iteration prev
     else Ok overallStats);
  let '(current_draws, g) := draw_bandit_distribution banditStats g in
  do selected_bandit <- argmax current_draws;
  do overallStats <-
    moditem overallStats iteration (OverallStat.set_bandit selected_bandit);
  do (rewarded, g) <- Bandits_select the_bandits selected_bandit g;
  do (banditStats, overallStats) <-
    (if rewarded : bool then
       do bs <- moditem banditStats selected_bandit BanditStat.add_win;
       do os <- moditem overallStats iteration OverallStat.add_win;
       Ok (bs, os)
     else
       do bs <- moditem banditStats selected_bandit BanditStat.add_loss;
       do os <- moditem overallStats iteration OverallStat.add_loss;
       Ok (bs, os));
  do r <- Bandits_regret the_bandits selected_bandit;
  do overallStats <- moditem overallStats iteration (OverallStat.add_regret r);
  Ok (banditStats, overallStats, g).

(** [for iteration in iterations: ...]; an exception ends the run. *)
Fixpoint loop (the_bandits : Bandits) (iterations : list Z)
    (st : loop_state G) : result (loop_state G) :=
  match iterations with
  | [] => Ok st
  | iteration :: rest =>
      do st1 <- loop_body the_bandits iteration st;
      loop the_bandits rest st1
  end.

(** The script, for the two integers read from the command line (the
    usage message for a wrong number of arguments is left out); the
    result is the value of its variables when the plots are drawn.
    Printing the bandits and drawing the plots change none of them. *)
Definition main (bandit_count trial_count : Z) (g : G)
  : result (Bandits * loop_state G) :=
  let trial_count := if trial_count <? 1 then 1 else trial_count in
  do (the_bandits, g) <- Bandits_init bandit_count g;
  let banditStats := zeros BanditStat.zero bandit_count in
  let overallStats := zeros OverallStat.zero trial_count in
  do st <- loop the_bandits (range trial_count) (banditStats, overallStats, g);
  Ok (the_bandits, st).

End Program.

(** ** Vocabulary of the statements *)

(** The record round [iteration] leaves behind: the previous record with
    the chosen bandit stored, one more win or loss, and the round's regret
    added. *)
Definition round_record `{Binary64} (prev : OverallStat.t) (selected_bandit : Z)
    (rewarded : bool) (r : Q) : OverallStat.t :=
  OverallStat.add_regret r
    ((if rewarded then OverallStat.add_win else OverallStat.add_loss)
       (OverallStat.set_bandit selected_bandit prev)).

(** The counters of a bandit after one more pull. *)
Definition pulled (rewarded : bool) (s : BanditStat.t) : BanditStat.t :=
  if rewarded then BanditStat.add_win s else BanditStat.add_loss s.

(** In how many of the rounds [rounds] bandit [a] was the chosen one. *)
Fixpoint times_selected (a : Z) (rounds : list OverallStat.t) : Z :=
  match rounds with
  | [] => 0
  | r :: rest =>
      (if OverallStat.bandit r =? a then 1 else 0) + times_selected a rest
  end.

(** What [Bandits.__init__] establishes: there is a bandit, and [max_prob]
    is one of the probabilities and no smaller than any of them. *)
Definition Bandits_valid (self : Bandits) : Prop :=
  bandits self <> [] /\
  In (max_prob self) (bandits self) /\
  forall p : Q, In p (bandits self) -> (p <= max_prob self)%Q.

(** The state of the simulation when [i] of its [n] rounds are done. *)
Record rounds_done `{Binary64} (the_bandits : Bandits) (n i : nat)
    (banditStats : list BanditStat.t) (overallStats : list OverallStat.t)
  : Prop := {
  done_stats_length : length banditStats = length (bandits the_bandits);
  done_overall_length : length overallStats = n;
  done_rest_zero :
    forall j : nat, (i <= j < n)%nat -> overallStats !! j = Some OverallStat.zero;
  done_totals :
    forall (j : nat) (r : OverallStat.t),
      (j < i)%nat -> overallStats !! j = Some r ->
      OverallStat.wins r + OverallStat.losses r = Z.of_nat j + 1;
  done_bandit :
    forall (j : nat) (r : OverallStat.t),
      (j < i)%nat -> overallStats !! j = Some r ->
      0 <= OverallStat.bandit r < bandits_size the_bandits;
  done_regret :
    forall (j : nat) (r r' : OverallStat.t),
      (S j < i)%nat -> overallStats !! j = Some r -> overallStats !! S j = Some r' ->
      (OverallStat.regret r <= OverallStat.regret r')%Q;
  done_float :
    forall (j : nat) (r : OverallStat.t),
      overallStats !! j = Some r ->
      (rnd (OverallStat.regret r) == OverallStat.regret r)%Q;
  done_pulls :
    forall (a : nat) (s : BanditStat.t),
      banditStats !! a = Some s ->
      BanditStat.wins s + BanditStat.losses s =
      times_selected (Z.of_nat a) (take i overallStats)
}.

(** The record round [i] starts from: the zero record in the first round,
    the record of the round before in every other. *)
Definition record_before (overallStats : list OverallStat.t) (i : nat)
    (prev : OverallStat.t) : Prop :=
  match i with
  | O => prev = OverallStat.zero
  | S k => overallStats !! k = Some prev
  end.

(** The wins, and the losses, of all bandits together. *)
Fixpoint total_wins (banditStats : list BanditStat.t) : Z :=
  match banditStats with
  | [] => 0
  | s :: rest => BanditStat.wins s + total_wins rest
  end.

Fixpoint total_losses (banditStats : list BanditStat.t) : Z :=
  match banditStats with
  | [] => 0
  | s :: rest => BanditStat.losses s + total_losses rest
  end.

(** Every record of the first [i] rounds is the record before it with the
    round's outcome added: the number of a bandit, one win or one loss,
    and that bandit's regret. *)
Definition rounds_linked `{Binary64} (the_bandits : Bandits) (i : nat)
    (overallStats : list OverallStat.t) : Prop :=
  forall (j : nat) (r prev : OverallStat.t),
    (j < i)%nat ->
    overallStats !! j = Some r ->
    record_before overallStats j prev ->
    exists (p : Q) (rewarded : bool),
      bandits the_bandits !! Z.to_nat (OverallStat.bandit r) = Some p /\
      r = round_record prev (OverallStat.bandit r) rewarded
            (fsub (max_prob the_bandits) p).

(** ** A concrete rounding and a concrete generator

    Used to run the program on concrete inputs.  [Grid.rnd] rounds to the
    nearest multiple of [2 ^ -53], the spacing of binary64 between one
    half and one. *)
Module Grid.
Definition scale : Z := 2 ^ 53.

Definition rnd (x : Q) : Q :=
  Qmake (Qfloor (x * inject_Z scale + (1 # 2))) (Z.to_pos scale).
End Grid.

(** [Grid.rnd] leaves [k # d] as it is when [d] times [m] is [2 ^ 53]. *)
Ltac grid_multiple k d m :=
  let Hf := fresh "Hf" in
  let Heq := fresh "Heq" in
  assert (Hf : Qfloor ((k # d) * inject_Z Grid.scale + (1 # 2)) = k * m);
  [ assert (Heq : ((k # d) * inject_Z (Z.pos d * m) + (1 # 2) ==
                   inject_Z (k * m) + (1 # 2))%Q);
    [ apply Qplus_comp; [|reflexivity];
      unfold Qeq, Qmult, inject_Z; cbn [Qnum Qden];
      rewrite Pos.mul_1_r; lia
    | change Grid.scale with (Z.pos d * m); rewrite Heq;
      unfold Qfloor, Qplus, inject_Z; cbn [Qnum Qden];
      change (Z.pos (1 * 2)) with 2;
      symmetry; apply Z.div_unique with (r := 1); lia ]
  | unfold Grid.rnd; rewrite Hf; unfold Qeq; cbn [Qnum Qden];
    change (Z.pos (Z.to_pos Grid.scale)) with (Z.pos d * m); lia ].

#[export, refine] Instance Grid_binary64 : Binary64 := {|
  rnd := Grid.rnd;
  rnd_le := _;
  rnd_rnd := _;
  rnd_Z := _
|}.
Proof.
  - intros x y Hle. unfold Grid.rnd.
    assert (Hf : Qfloor (x * inject_Z Grid.scale + (1 # 2)) <=
                 Qfloor (y * inject_Z Grid.scale + (1 # 2))).
    { apply Qfloor_resp_le. apply Qplus_le_compat; [|apply Qle_refl].
      apply Qmult_le_compat_r; [exact Hle|]. now vm_compute. }
    unfold Qle. cbn [Qnum Qden]. apply Z.mul_le_mono_nonneg_r; [lia|exact Hf].
  - intros x. unfold Grid.rnd at 2 3.
    set (k := Qfloor (x * inject_Z Grid.scale + (1 # 2))).
    grid_multiple k (Z.to_pos Grid.scale) 1.
  - intros n _. unfold inject_Z. grid_multiple n 1%positive Grid.scale.
Defined.

(** A linear congruential generator.  Its [beta] is only a stand-in with
    values in the unit interval that moves with the counters. *)
Module Lcg.
Definition modulus : Z := 2147483648.

Definition next (s : Z) : Z := (s * 1103515245 + 12345) mod modulus.

Definition uniform (s : Z) : Q * Z :=
  let s1 := next s in
  (Qmake s1 (Z.to_pos modulus), s1).

Definition binomial (n : Z) (p : Q) (s : Z) : Z * Z :=
  let '(u, s1) := uniform s in
  ((if Qlt_bool u p then n else 0), s1).

Definition beta (a b : Z) (s : Z) : Q * Z :=
  let '(u, s1) := uniform s in
  (Qred ((inject_Z a - 1 + u) / inject_Z (a + b - 1)), s1).
End Lcg.

#[export, refine] Instance Lcg_random : NumpyRandom Z := {|
  random_double := Lcg.uniform;
  binomial := Lcg.binomial;
  beta := Lcg.beta;
  random_double_range := _;
  random_double_float := _
|}.
Proof.
  - intros s.
    pose proof (Z.mod_pos_bound (s * 1103515245 + 12345) Lcg.modulus eq_refl) as Hb.
    unfold Lcg.uniform, Lcg.next, Qle, Qlt; cbn [fst Qnum Qden].
    change (Z.pos (Z.to_pos Lcg.modulus)) with Lcg.modulus.
    split; lia.
  - intros s. unfold Lcg.uniform. cbn [fst rnd Grid_binary64].
    grid_multiple (Lcg.next s) (Z.to_pos Lcg.modulus) (2 ^ 22).
Defined.

(** * Properties *)

(** ** Comparisons on rationals *)

Lemma Qlt_bool_true (x y : Q) : Qlt_bool x y = true -> (x < y)%Q.
Proof.
  unfold Qlt_bool. intros Hb. apply negb_true_iff in Hb.
  apply Qnot_le_lt. intros Hle. apply Qle_bool_iff in Hle. congruence.
Qed.

Lemma Qlt_bool_false (x y : Q) : Qlt_bool x y = false -> (y <= x)%Q.
Proof.
  unfold Qlt_bool. intros Hb. apply negb_false_iff in Hb.
  now apply Qle_bool_iff.
Qed.

Lemma Qlt_bool_Qeq (x x' y y' : Q) :
  (x == x')%Q -> (y == y')%Q -> Qlt_bool x y = Qlt_bool x' y'.
Proof.
  intros Hx Hy. unfold Qlt_bool. f_equal. now apply Qleb_comp.
Qed.

(** ** Float arithmetic *)

Section Floats.
Context `{Binary64}.

Lemma rnd_0 : (rnd 0 == 0)%Q.
Proof. apply (rnd_Z 0). lia. Qed.

Lemma rnd_1 : (rnd 1 == 1)%Q.
Proof. apply (rnd_Z 1). lia. Qed.

Lemma rnd_Qeq (x y : Q) : (x == y)%Q -> (rnd x == rnd y)%Q.
Proof.
  intros Heq. apply Qle_antisym; apply rnd_le; rewrite Heq; apply Qle_refl.
Qed.

Lemma rnd_nonneg (x : Q) : (0 <= x)%Q -> (0 <= rnd x)%Q.
Proof.
  intros Hx. rewrite <- rnd_0. now apply rnd_le.
Qed.

(** A difference of a float and a smaller one is not negative, and not
    above the float it is taken from when the other is not negative. *)
Lemma fsub_nonneg (x y : Q) : (y <= x)%Q -> (0 <= fsub x y)%Q.
Proof.
  intros Hle. apply rnd_nonneg. lra.
Qed.

Lemma fsub_le (x y : Q) : (rnd x == x)%Q -> (0 <= y)%Q -> (fsub x y <= x)%Q.
Proof.
  intros Hx Hy. rewrite <- Hx at 2. apply rnd_le. lra.
Qed.

Lemma fsub_self (x : Q) : (fsub x x == 0)%Q.
Proof.
  unfold fsub. rewrite <- rnd_0. apply rnd_Qeq. lra.
Qed.

(** Adding a float that is not negative to a float does not make it
    smaller, and a sum is a float. *)
Lemma fadd_nonneg_le (x r : Q) : (rnd x == x)%Q -> (0 <= r)%Q -> (x <= fadd x r)%Q.
Proof.
  intros Hx Hr. rewrite <- Hx at 1. apply rnd_le. lra.
Qed.

Lemma fadd_float (x y : Q) : (rnd (fadd x y) == fadd x y)%Q.
Proof. apply rnd_rnd. Qed.

(** A sum of a float between 0 and the integer [n] and a float between
    0 and 1 lies between 0 and [n + 1], as long as [n + 1] is a float. *)
Lemma fadd_bound (x y : Q) (n : Z) :
  (0 <= x)%Q -> (x <= inject_Z n)%Q -> (0 <= y)%Q -> (y <= 1)%Q ->
  0 <= n -> n + 1 <= 2 ^ 53 ->
  (0 <= fadd x y)%Q /\ (fadd x y <= inject_Z (n + 1))%Q.
Proof.
  intros Hx0 Hxn Hy0 Hy1 Hn Hsmall. unfold fadd. split.
  - apply rnd_nonneg. lra.
  - rewrite <- (rnd_Z (n + 1)) by lia. apply rnd_le.
    rewrite inject_Z_plus. change (inject_Z 1) with 1%Q. lra.
Qed.

End Floats.

(** ** Array access *)

Lemma getitem_lookup {A : Type} (a : list A) (i : nat) (x : A) :
  a !! i = Some x -> getitem a (Z.of_nat i) = Ok x.
Proof.
  intros Hx. pose proof (lookup_lt_Some _ _ _ Hx) as Hlt.
  unfold getitem.
  destruct (Z.ltb_spec (Z.of_nat i) 0) as [?|_]; [lia|].
  destruct (Z.ltb_spec (Z.of_nat i) 0) as [?|_]; [lia|].
  destruct (Z.leb_spec (Z.of_nat (length a)) (Z.of_nat i)) as [?|_]; [lia|].
  cbn [orb]. now rewrite Nat2Z.id, Hx.
Qed.

Lemma getitem_at_length {A : Type} (a : list A) :
  getitem a (Z.of_nat (length a)) = Raise IndexError.
Proof.
  unfold getitem.
  destruct (Z.ltb_spec (Z.of_nat (length a)) 0) as [?|_]; [lia|].
  destruct (Z.ltb_spec (Z.of_nat (length a)) 0) as [?|_]; [lia|].
  now rewrite Z.leb_refl.
Qed.

Lemma setitem_in_range {A : Type} (a : list A) (i : nat) (x : A) :
  (i < length a)%nat -> setitem a (Z.of_nat i) x = Ok (<[i := x]> a).
Proof.
  intros Hlt. unfold setitem.
  destruct (Z.ltb_spec (Z.of_nat i) 0) as [?|_]; [lia|].
  destruct (Z.ltb_spec (Z.of_nat i) 0) as [?|_]; [lia|].
  destruct (Z.leb_spec (Z.of_nat (length a)) (Z.of_nat i)) as [?|_]; [lia|].
  cbn [orb]. now rewrite Nat2Z.id.
Qed.

Lemma moditem_lookup {A : Type} (a : list A) (i : nat) (x : A) (f : A -> A) :
  a !! i = Some x -> moditem a (Z.of_nat i) f = Ok (<[i := f x]> a).
Proof.
  intros Hx. unfold moditem. rewrite (getitem_lookup _ _ _ Hx). cbn [bind].
  apply setitem_in_range. eapply lookup_lt_Some, Hx.
Qed.

Lemma moditem_insert {A : Type} (a : list A) (i : nat) (x : A) (f : A -> A) :
  (i < length a)%nat ->
  moditem (<[i := x]> a) (Z.of_nat i) f = Ok (<[i := f x]> a).
Proof.
  intros Hlt.
  rewrite (moditem_lookup _ i x) by now apply list_lookup_insert_eq.
  now rewrite list_insert_insert_eq.
Qed.

(** ** [argmax] and [amax] *)

(** The scan keeps, as it moves over the array [l], the first position of
    the largest value seen so far. *)
Lemma argmax_scan_spec (l pre ip : list Q) (mp : Q) (mi : nat) :
  l = pre ++ ip ->
  l !! mi = Some mp ->
  (mi < length pre)%nat ->
  (forall j y, (j < mi)%nat -> l !! j = Some y -> (y < mp)%Q) ->
  (forall j y, (j < length pre)%nat -> l !! j = Some y -> (y <= mp)%Q) ->
  exists (r : nat) (v : Q),
    argmax_scan mp (Z.of_nat mi) (Z.of_nat (length pre)) ip = Z.of_nat r /\
    l !! r = Some v /\
    (forall j y, l !! j = Some y -> (y <= v)%Q) /\
    (forall j y, (j < r)%nat -> l !! j = Some y -> (y < v)%Q).
Proof.
  revert pre mp mi. induction ip as [|x rest IH]; intros pre mp mi Hl Hmi Hlt Hbefore Hseen.
  - exists mi, mp. cbn [argmax_scan]. repeat split; auto.
    intros j y Hj. apply (Hseen j); [|exact Hj].
    apply lookup_lt_Some in Hj. rewrite Hl, length_app in Hj. cbn in Hj. lia.
  - assert (Hx : l !! length pre = Some x).
    { rewrite Hl. now rewrite list_lookup_middle. }
    assert (Hl' : l = (pre ++ [x]) ++ rest) by now rewrite <- app_assoc.
    assert (Hlen : Z.of_nat (length pre) + 1 = Z.of_nat (length (pre ++ [x]))).
    { rewrite length_app. cbn. lia. }
    cbn [argmax_scan]. rewrite Hlen.
    destruct (Qlt_bool mp x) eqn:Hcmp.
    + apply Qlt_bool_true in Hcmp.
      apply (IH (pre ++ [x]) x (length pre) Hl' Hx).
      * rewrite length_app. cbn. lia.
      * intros j y Hj Hy.
        apply Qle_lt_trans with mp; [|exact Hcmp]. now apply (Hseen j).
      * intros j y Hj Hy. rewrite length_app in Hj. cbn in Hj.
        destruct (decide (j = length pre)) as [->|Hne].
        -- rewrite Hx in Hy. injection Hy as <-. apply Qle_refl.
        -- apply Qlt_le_weak, Qle_lt_trans with mp; [|exact Hcmp].
           apply (Hseen j); [lia|exact Hy].
    + apply Qlt_bool_false in Hcmp.
      apply (IH (pre ++ [x]) mp mi Hl' Hmi).
      * rewrite length_app. cbn. lia.
      * exact Hbefore.
      * intros j y Hj Hy. rewrite length_app in Hj. cbn in Hj.
        destruct (decide (j = length pre)) as [->|Hne].
        -- rewrite Hx in Hy. now injection Hy as <-.
        -- apply (Hseen j); [lia|exact Hy].
Qed.

Lemma argmax_spec (a : list Q) :
  a <> [] ->
  exists (r : nat) (v : Q),
    argmax a = Ok (Z.of_nat r) /\
    a !! r = Some v /\
    (forall j y, a !! j = Some y -> (y <= v)%Q) /\
    (forall j y, (j < r)%nat -> a !! j = Some y -> (y < v)%Q).
Proof.
  destruct a as [|x rest]; [congruence|]. intros _.
  destruct (argmax_scan_spec (x :: rest) [x] rest x 0%nat) as (r & v & Hr & Hv & Hmax & Hfirst).
  - reflexivity.
  - reflexivity.
  - cbn. lia.
  - intros j y Hj. lia.
  - intros j y Hj Hy. cbn in Hj. assert (j = 0%nat) as -> by lia.
    cbn in Hy. injection Hy as <-. apply Qle_refl.
  - exists r, v. split; [|auto]. cbn [argmax]. f_equal. exact Hr.
Qed.

Lemma argmax_scan_Qeq (ip ip' : list Q) :
  Forall2 Qeq ip ip' ->
  forall (mp mp' : Q) (mi i : Z),
    (mp == mp')%Q -> argmax_scan mp mi i ip = argmax_scan mp' mi i ip'.
Proof.
  induction 1 as [|x x' rest rest' Hx Hrest IH]; intros mp mp' mi i Hmp.
  - reflexivity.
  - cbn [argmax_scan]. rewrite (Qlt_bool_Qeq mp mp' x x' Hmp Hx).
    destruct (Qlt_bool mp' x'); now apply IH.
Qed.

Lemma amax_scan_spec (ip : list Q) :
  forall mp : Q,
    In (amax_scan mp ip) (mp :: ip) /\
    (forall y, In y (mp :: ip) -> (y <= amax_scan mp ip)%Q).
Proof.
  induction ip as [|x rest IH]; intros mp; cbn [amax_scan].
  - split; [now left|]. intros y [<-|[]]. apply Qle_refl.
  - destruct (Qlt_bool mp x) eqn:Hcmp.
    + apply Qlt_bool_true in Hcmp. destruct (IH x) as [Hin Hmax]. split.
      * right. exact Hin.
      * intros y [<-|Hy]; [|now apply Hmax].
        apply Qlt_le_weak, Qlt_le_trans with x; [exact Hcmp|]. apply Hmax. now left.
    + apply Qlt_bool_false in Hcmp. destruct (IH mp) as [Hin Hmax]. split.
      * destruct Hin as [Hin|Hin]; [now left|now right; right].
      * intros y [<-|[<-|Hy]].
        -- apply Hmax. now left.
        -- apply Qle_trans with mp; [exact Hcmp|]. apply Hmax. now left.
        -- apply Hmax. now right.
Qed.

(** ** Drawing from the random source *)

Section Draws.
Context `{Binary64} {G : Type} `{!NumpyRandom G}.

Lemma random_sample_spec (size : nat) :
  forall g : G,
    length (fst (random_sample size g)) = size /\
    Forall (fun p => (0 <= p)%Q /\ (p < 1)%Q) (fst (random_sample size g)).
Proof.
  induction size as [|n IH]; intros g; cbn [random_sample].
  - split; [reflexivity|constructor].
  - pose proof (random_double_range g) as Hx.
    destruct (random_double g) as [x g1]. specialize (IH g1).
    destruct (random_sample n g1) as [xs g2]. cbn [fst] in *.
    destruct IH as [Hlen Hall]. split.
    + cbn. now rewrite Hlen.
    + now constructor.
Qed.

Lemma random_sample_float (size : nat) :
  forall g : G,
    Forall (fun p => (rnd p == p)%Q) (fst (random_sample size g)).
Proof.
  induction size as [|n IH]; intros g; cbn [random_sample].
  - constructor.
  - pose proof (random_double_float g) as Hx.
    destruct (random_double g) as [x g1]. specialize (IH g1).
    destruct (random_sample n g1) as [xs g2]. cbn [fst] in *.
    now constructor.
Qed.

Lemma vectorize_snoc {A B : Type} (f : A -> G -> B * G) (a : list A) (x : A) (g : G) :
  vectorize f (a ++ [x]) g =
  (fst (vectorize f a g) ++ [fst (f x (snd (vectorize f a g)))],
   snd (f x (snd (vectorize f a g)))).
Proof.
  unfold vectorize. rewrite fold_left_app. cbn [fold_left].
  destruct (fold_left _ a ([], g)) as [ys g1]. cbn [fst snd].
  now destruct (f x g1).
Qed.

Lemma vectorize_length {A B : Type} (f : A -> G -> B * G) (a : list A) (g : G) :
  length (fst (vectorize f a g)) = length a.
Proof.
  induction a as [|x a IH] using rev_ind; [reflexivity|].
  rewrite vectorize_snoc. cbn [fst].
  rewrite !length_app, IH. reflexivity.
Qed.

(** The value at position [i] is the one [f] returns on the [i]-th
    element, called on the generator as the calls for the elements
    before it have left it. *)
Lemma vectorize_lookup {A B : Type} (f : A -> G -> B * G) (a : list A) (g : G) :
  forall (i : nat) (x : A),
    a !! i = Some x ->
    fst (vectorize f a g) !! i =
    Some (fst (f x (snd (vectorize f (take i a) g)))).
Proof.
  induction a as [|z a IH] using rev_ind; intros i x Hx; [discriminate|].
  rewrite vectorize_snoc. cbn [fst].
  apply lookup_app_Some in Hx as [Hx|[Hge Hx]].
  - pose proof (lookup_lt_Some _ _ _ Hx) as Hlt.
    rewrite lookup_app_l by (rewrite vectorize_length; exact Hlt).
    rewrite take_app_le by lia. now apply IH.
  - apply list_lookup_singleton_Some in Hx as [Hi <-].
    assert (i = length a) as -> by lia.
    rewrite take_app_length.
    apply list_lookup_middle. now rewrite vectorize_length.
Qed.

End Draws.

(** ** The bandits *)

Lemma Bandits_regret_in_range `{Binary64} (self : Bandits) (number : nat) (p : Q) :
  bandits self !! number = Some p ->
  Bandits_regret self (Z.of_nat number) = Ok (fsub (max_prob self) p).
Proof.
  intros Hp. pose proof (lookup_lt_Some _ _ _ Hp) as Hlt.
  unfold Bandits_regret, bandits_size.
  destruct (Z.ltb_spec (Z.of_nat number) 0) as [?|_]; [lia|].
  destruct (Z.gtb_spec (Z.of_nat number) (Z.of_nat (length (bandits self)))) as [?|_]; [lia|].
  cbn [orb]. now rewrite (getitem_lookup _ _ _ Hp).
Qed.

Lemma Bandits_regret_out_of_range `{Binary64} (self : Bandits) (number : Z) :
  number < 0 \/ bandits_size self < number ->
  Bandits_regret self number = Ok (max_prob self).
Proof.
  intros Hout. unfold Bandits_regret.
  destruct (Z.ltb_spec number 0) as [?|?]; [reflexivity|].
  destruct (Z.gtb_spec number (bandits_size self)) as [?|?]; [reflexivity|lia].
Qed.

Lemma Bandits_regret_nonneg `{Binary64} (self : Bandits) (number : nat) (p : Q) :
  Bandits_valid self ->
  bandits self !! number = Some p ->
  (0 <= fsub (max_prob self) p)%Q.
Proof.
  intros (_ & _ & Hmax) Hp. apply fsub_nonneg.
  apply Hmax. apply list_elem_of_In. eapply list_elem_of_lookup_2, Hp.
Qed.

Section Simulation.
Context `{Binary64} {G : Type} `{!NumpyRandom G}.

Lemma Bandits_select_in_range (self : Bandits) (number : nat) (p : Q) (g : G) :
  bandits self !! number = Some p ->
  Bandits_select self (Z.of_nat number) g =
  Ok (fst (binomial 1 p g) =? 1, snd (binomial 1 p g)).
Proof.
  intros Hp. pose proof (lookup_lt_Some _ _ _ Hp) as Hlt.
  unfold Bandits_select, bandits_size.
  destruct (Z.ltb_spec (Z.of_nat number) 0) as [?|_]; [lia|].
  destruct (Z.geb_spec (Z.of_nat number) (Z.of_nat (length (bandits self)))) as [?|_]; [lia|].
  cbn [orb]. rewrite (getitem_lookup _ _ _ Hp). cbn [bind].
  now destruct (binomial 1 p g).
Qed.

Lemma Bandits_select_out_of_range (self : Bandits) (number : Z) (g : G) :
  number < 0 \/ bandits_size self <= number ->
  Bandits_select self number g = Ok (false, g).
Proof.
  intros Hout. unfold Bandits_select.
  destruct (Z.ltb_spec number 0) as [?|?]; [reflexivity|].
  destruct (Z.geb_spec number (bandits_size self)) as [?|?]; [reflexivity|lia].
Qed.

Lemma Bandits_init_ok (size : Z) (g : G) :
  2 <= size ->
  exists self : Bandits,
    Bandits_init size g = Ok (self, snd (random_sample (Z.to_nat size) g)) /\
    bandits self = fst (random_sample (Z.to_nat size) g) /\
    Bandits_valid self.
Proof.
  intros Hsize. unfold Bandits_init.
  destruct (Z.ltb_spec size 2) as [?|_]; [lia|].
  destruct (random_sample_spec (Z.to_nat size) g) as [Hlen _].
  destruct (random_sample (Z.to_nat size) g) as [arr g1]. cbn [fst snd] in *.
  destruct arr as [|x rest]; [cbn in Hlen; lia|].
  cbn [amax bind].
  eexists. split; [reflexivity|]. cbn [bandits max_prob].
  split; [reflexivity|]. split; [discriminate|].
  apply amax_scan_spec.
Qed.

(** The copy of the previous round's record that opens every round but
    the first. *)
Lemma copy_statistics (overallStats : list OverallStat.t) (i : nat)
    (prev : OverallStat.t) :
  (i < length overallStats)%nat ->
  overallStats !! pred i = Some prev ->
  (if negb (Z.of_nat i =? 0) then
     do prev <- getitem overallStats (Z.of_nat i - 1);
     setitem overallStats (Z.of_nat i) prev
   else Ok overallStats) = Ok (<[i := prev]> overallStats).
Proof.
  intros Hlt Hprev. destruct i as [|i'].
  - cbn [Z.of_nat Z.eqb negb]. cbn [pred] in Hprev.
    now rewrite list_insert_id.
  - cbn [pred] in Hprev.
    destruct (Z.eqb_spec (Z.of_nat (S i')) 0) as [?|_]; [lia|]. cbn [negb].
    replace (Z.of_nat (S i') - 1) with (Z.of_nat i') by lia.
    rewrite (getitem_lookup _ _ _ Hprev). cbn [bind].
    now apply setitem_in_range.
Qed.

(** One round, from a state whose arrays have the right sizes: no access
    is out of range, the chosen bandit is the first maximum of the draws,
    its counters and the round's record are the only things written. *)
Lemma loop_body_spec (the_bandits : Bandits) (i : nat)
    (banditStats : list BanditStat.t) (overallStats : list OverallStat.t)
    (g : G) (prev : OverallStat.t) :
  length banditStats = length (bandits the_bandits) ->
  banditStats <> [] ->
  (i < length overallStats)%nat ->
  overallStats !! pred i = Some prev ->
  exists (sel : nat) (s : BanditStat.t) (p : Q),
    argmax (fst (draw_bandit_distribution banditStats g)) = Ok (Z.of_nat sel) /\
    banditStats !! sel = Some s /\
    bandits the_bandits !! sel = Some p /\
    loop_body the_bandits (Z.of_nat i) (banditStats, overallStats, g) =
    let g1 := snd (draw_bandit_distribution banditStats g) in
    let rewarded := fst (binomial 1 p g1) =? 1 in
    Ok (<[sel := pulled rewarded s]> banditStats,
        <[i := round_record prev (Z.of_nat sel) rewarded
                 (fsub (max_prob the_bandits) p)]> overallStats,
        snd (binomial 1 p g1)).
Proof.
  intros Hlen Hne Hi Hprev.
  pose proof (vectorize_length draw_bandit_distribution_1 banditStats g) as Hdraws.
  fold (draw_bandit_distribution banditStats g) in Hdraws.
  destruct (argmax_spec (fst (draw_bandit_distribution banditStats g)))
    as (sel & v & Hsel & Hv & _).
  { intros Hnil. rewrite Hnil in Hdraws. destruct banditStats; [congruence|discriminate]. }
  apply lookup_lt_Some in Hv. rewrite Hdraws in Hv.
  destruct (lookup_lt_is_Some_2 banditStats sel Hv) as [s Hs].
  destruct (lookup_lt_is_Some_2 (bandits the_bandits) sel ltac:(lia)) as [p Hp].
  exists sel, s, p. repeat split; try assumption.
  unfold loop_body.
  rewrite (copy_statistics _ _ _ Hi Hprev). cbn [bind].
  destruct (draw_bandit_distribution banditStats g) as [current_draws g1].
  cbn [fst snd] in *. rewrite Hsel. cbn [bind].
  rewrite (moditem_insert _ _ _ _ Hi). cbn [bind].
  rewrite (Bandits_select_in_range _ _ _ _ Hp). cbn [bind].
  rewrite (Bandits_regret_in_range _ _ _ Hp).
  destruct (fst (binomial 1 p g1) =? 1); cbn [pulled].
  - rewrite (moditem_lookup _ _ _ _ Hs). cbn [bind].
    rewrite (moditem_insert _ _ _ _ Hi). cbn [bind].
    rewrite (moditem_insert _ _ _ _ Hi). cbn [bind].
    reflexivity.
  - rewrite (moditem_lookup _ _ _ _ Hs). cbn [bind].
    rewrite (moditem_insert _ _ _ _ Hi). cbn [bind].
    rewrite (moditem_insert _ _ _ _ Hi). cbn [bind].
    reflexivity.
Qed.

End Simulation.

(** ** The invariant of the simulation loop *)

Lemma times_selected_snoc (a : Z) (rounds : list OverallStat.t) (r : OverallStat.t) :
  times_selected a (rounds ++ [r]) =
  times_selected a rounds + (if OverallStat.bandit r =? a then 1 else 0).
Proof.
  induction rounds as [|r0 rest IH]; cbn [times_selected app].
  - lia.
  - rewrite IH. lia.
Qed.

Lemma round_record_bandit `{Binary64} prev sel rewarded r :
  OverallStat.bandit (round_record prev sel rewarded r) = sel.
Proof. now destruct rewarded. Qed.

Lemma round_record_totals `{Binary64} prev sel rewarded r :
  OverallStat.wins (round_record prev sel rewarded r) +
  OverallStat.losses (round_record prev sel rewarded r) =
  OverallStat.wins prev + OverallStat.losses prev + 1.
Proof. destruct rewarded; cbn; lia. Qed.

Lemma round_record_regret `{Binary64} prev sel rewarded r :
  OverallStat.regret (round_record prev sel rewarded r) =
  fadd (OverallStat.regret prev) r.
Proof. now destruct rewarded. Qed.

Lemma pulled_totals rewarded s :
  BanditStat.wins (pulled rewarded s) + BanditStat.losses (pulled rewarded s) =
  BanditStat.wins s + BanditStat.losses s + 1.
Proof. destruct rewarded; cbn; lia. Qed.

Section Invariant.
Context `{Binary64} {G : Type} `{!NumpyRandom G}.

(** The record a round starts from holds the totals of the rounds before
    it: the previous record, or the zero record in the first round. *)
Lemma rounds_done_prev the_bandits n i banditStats overallStats :
  rounds_done the_bandits n i banditStats overallStats ->
  (i < n)%nat ->
  exists prev : OverallStat.t,
    overallStats !! pred i = Some prev /\
    OverallStat.wins prev + OverallStat.losses prev = Z.of_nat i.
Proof.
  intros Hinv Hi. destruct i as [|i']; cbn [pred].
  - exists OverallStat.zero. split; [|reflexivity].
    apply (done_rest_zero _ _ _ _ _ Hinv). lia.
  - destruct (lookup_lt_is_Some_2 overallStats i') as [prev Hprev].
    { rewrite (done_overall_length _ _ _ _ _ Hinv). lia. }
    exists prev. split; [exact Hprev|].
    rewrite (done_totals _ _ _ _ _ Hinv i' prev) by (lia || exact Hprev). lia.
Qed.

Lemma rounds_done_step the_bandits n i banditStats overallStats (g : G) :
  Bandits_valid the_bandits ->
  rounds_done the_bandits n i banditStats overallStats ->
  (i < n)%nat ->
  exists banditStats' overallStats' g',
    loop_body the_bandits (Z.of_nat i) (banditStats, overallStats, g) =
    Ok (banditStats', overallStats', g') /\
    rounds_done the_bandits n (S i) banditStats' overallStats'.
Proof.
  intros Hvalid Hinv Hi.
  destruct (rounds_done_prev _ _ _ _ _ Hinv Hi) as (prev & Hprev & Hprev_tot).
  pose proof (done_overall_length _ _ _ _ _ Hinv) as Hlen_o.
  pose proof (done_stats_length _ _ _ _ _ Hinv) as Hlen_s.
  assert (Hne : banditStats <> []).
  { destruct Hvalid as [Hb _]. intros ->. cbn in Hlen_s.
    destruct (bandits the_bandits); [congruence|discriminate]. }
  destruct (loop_body_spec the_bandits i banditStats overallStats g prev)
    as (sel & s & p & _ & Hs & Hp & Hrun); try assumption; [lia|].
  cbv zeta in Hrun.
  set (rewarded := fst (binomial 1 p (snd (draw_bandit_distribution banditStats g))) =? 1) in Hrun.
  set (rec := round_record prev (Z.of_nat sel) rewarded (fsub (max_prob the_bandits) p)) in Hrun.
  do 3 eexists. split; [exact Hrun|].
  assert (Hrec : <[i := rec]> overallStats !! i = Some rec).
  { apply list_lookup_insert_eq. lia. }
  constructor.
  - now rewrite length_insert.
  - now rewrite length_insert.
  - intros j Hj. rewrite list_lookup_insert_ne by lia.
    apply (done_rest_zero _ _ _ _ _ Hinv). lia.
  - intros j r Hj Hr. destruct (decide (j = i)) as [->|Hne_j].
    + rewrite Hrec in Hr. injection Hr as <-.
      unfold rec. rewrite round_record_totals. lia.
    + rewrite list_lookup_insert_ne in Hr by lia.
      apply (done_totals _ _ _ _ _ Hinv j r); [lia|exact Hr].
  - intros j r Hj Hr. destruct (decide (j = i)) as [->|Hne_j].
    + rewrite Hrec in Hr. injection Hr as <-.
      unfold rec. rewrite round_record_bandit.
      apply lookup_lt_Some in Hp. unfold bandits_size. lia.
    + rewrite list_lookup_insert_ne in Hr by lia.
      apply (done_bandit _ _ _ _ _ Hinv j r); [lia|exact Hr].
  - intros j r r' Hj Hr Hr'. destruct (decide (S j = i)) as [<-|Hne_j].
    + rewrite Hrec in Hr'. injection Hr' as <-.
      rewrite list_lookup_insert_ne in Hr by lia.
      cbn [pred] in Hprev. rewrite Hprev in Hr. injection Hr as <-.
      unfold rec. rewrite round_record_regret.
      apply fadd_nonneg_le.
      * now apply (done_float _ _ _ _ _ Hinv j prev).
      * eapply Bandits_regret_nonneg; eassumption.
    + rewrite list_lookup_insert_ne in Hr by lia.
      rewrite list_lookup_insert_ne in Hr' by lia.
      apply (done_regret _ _ _ _ _ Hinv j r r'); [lia|exact Hr|exact Hr'].
  - intros j r Hr. destruct (decide (j = i)) as [->|Hne_j].
    + rewrite Hrec in Hr. injection Hr as <-.
      unfold rec. rewrite round_record_regret. apply fadd_float.
    + rewrite list_lookup_insert_ne in Hr by lia.
      now apply (done_float _ _ _ _ _ Hinv j r).
  - intros a s' Hs'.
    rewrite (take_S_r _ _ _ Hrec), take_insert_ge by lia.
    rewrite times_selected_snoc. unfold rec at 1. rewrite round_record_bandit.
    destruct (decide (a = sel)) as [->|Hne_a].
    + rewrite list_lookup_insert_eq in Hs' by (eapply lookup_lt_Some, Hs).
      injection Hs' as <-. rewrite pulled_totals, Z.eqb_refl.
      rewrite (done_pulls _ _ _ _ _ Hinv sel s Hs). reflexivity.
    + rewrite list_lookup_insert_ne in Hs' by congruence.
      destruct (Z.eqb_spec (Z.of_nat sel) (Z.of_nat a)) as [?|_]; [lia|].
      rewrite (done_pulls _ _ _ _ _ Hinv a s' Hs'). lia.
Qed.

Lemma loop_rounds_done the_bandits n :
  Bandits_valid the_bandits ->
  forall (m i : nat) banditStats overallStats (g : G),
    (i + m <= n)%nat ->
    rounds_done the_bandits n i banditStats overallStats ->
    exists banditStats' overallStats' g',
      loop the_bandits (map Z.of_nat (seq i m)) (banditStats, overallStats, g) =
      Ok (banditStats', overallStats', g') /\
      rounds_done the_bandits n (i + m) banditStats' overallStats'.
Proof.
  intros Hvalid. induction m as [|m IH]; intros i banditStats overallStats g Hle Hinv.
  - do 3 eexists. split; [reflexivity|]. now rewrite Nat.add_0_r.
  - destruct (rounds_done_step _ _ _ _ _ g Hvalid Hinv) as (bs1 & os1 & g1 & Hstep & Hinv1); [lia|].
    destruct (IH (S i) bs1 os1 g1) as (bs2 & os2 & g2 & Hloop & Hinv2); [lia|exact Hinv1|].
    exists bs2, os2, g2. split.
    + cbn [seq map loop]. rewrite Hstep. cbn [bind]. exact Hloop.
    + now replace (i + S m)%nat with (S i + m)%nat by lia.
Qed.

Lemma rounds_done_start the_bandits (trial_count : Z) :
  rounds_done the_bandits (Z.to_nat trial_count) 0
    (zeros BanditStat.zero (bandits_size the_bandits))
    (zeros OverallStat.zero trial_count).
Proof.
  unfold zeros, bandits_size. constructor.
  - now rewrite length_replicate, Nat2Z.id.
  - now rewrite length_replicate.
  - intros j Hj. apply lookup_replicate_2. lia.
  - intros j r Hj. lia.
  - intros j r Hj. lia.
  - intros j r r' Hj. lia.
  - intros j r Hr. apply lookup_replicate_1 in Hr as [-> _]. apply rnd_0.
  - intros a s Hs. apply lookup_replicate_1 in Hs as [-> _]. reflexivity.
Qed.

(** The whole script on a valid number of bandits: it ends without an
    exception, in a state where all rounds are done. *)
Lemma main_runs (bandit_count trial_count : Z) (g : G) :
  2 <= bandit_count ->
  exists the_bandits banditStats overallStats g',
    main bandit_count trial_count g =
    Ok (the_bandits, (banditStats, overallStats, g')) /\
    Bandits_valid the_bandits /\
    bandits_size the_bandits = bandit_count /\
    rounds_done the_bandits (Z.to_nat (Z.max 1 trial_count))
      (Z.to_nat (Z.max 1 trial_count)) banditStats overallStats.
Proof.
  intros Hcount. unfold main.
  replace (if trial_count <? 1 then 1 else trial_count) with (Z.max 1 trial_count)
    by (destruct (Z.ltb_spec trial_count 1); lia).
  set (n := Z.max 1 trial_count).
  destruct (Bandits_init_ok bandit_count g Hcount) as (b & Hinit & Hb & Hvalid).
  rewrite Hinit. cbn [bind].
  assert (Hsize : bandits_size b = bandit_count).
  { unfold bandits_size. rewrite Hb.
    destruct (random_sample_spec (Z.to_nat bandit_count) g) as [-> _]. lia. }
  pose proof (rounds_done_start b n) as Hstart. rewrite Hsize in Hstart.
  destruct (loop_rounds_done b (Z.to_nat n) Hvalid (Z.to_nat n) 0 _ _
              (snd (random_sample (Z.to_nat bandit_count) g)) ltac:(lia) Hstart)
    as (bs & os & g' & Hloop & Hinv).
  exists b, bs, os, g'. unfold range. rewrite Hloop. cbn [bind].
  cbn [Nat.add] in Hinv. split; [reflexivity|]. split; [exact Hvalid|].
  split; [exact Hsize|exact Hinv].
Qed.

End Invariant.

(** * The bandits *)

(** C1. [Bandits.regret] returns [max_prob] for a negative number and for
    a number above the size, and [max_prob - bandits[number]] for a number
    of a bandit; but its range test is [number > size], so the number
    equal to the size is taken for a bandit's and the array access
    raises [IndexError]: it does not return [max_prob] there. *)
Theorem Bandits_regret_off_by_one `{Binary64} :
  (forall (self : Bandits) (number : Z),
      number < 0 \/ bandits_size self < number ->
      Bandits_regret self number = Ok (max_prob self)) /\
  (forall (self : Bandits) (number : Z) (p : Q),
      0 <= number < bandits_size self ->
      bandits self !! Z.to_nat number = Some p ->
      Bandits_regret self number = Ok (fsub (max_prob self) p)) /\
  (forall self : Bandits,
      Bandits_regret self (bandits_size self) = Raise IndexError) /\
  Bandits_regret {| bandits := [0.2; 0.8]%Q; max_prob := 0.8%Q |} 2 =
  Raise IndexError.
Proof.
  split; [|split; [|split]].
  - apply Bandits_regret_out_of_range.
  - intros self number p Hrange Hp.
    rewrite <- (Z2Nat.id number) by lia.
    now apply Bandits_regret_in_range.
  - intros self. unfold Bandits_regret, bandits_size.
    destruct (Z.ltb_spec (Z.of_nat (length (bandits self))) 0) as [?|_]; [lia|].
    destruct (Z.gtb_spec (Z.of_nat (length (bandits self)))
                (Z.of_nat (length (bandits self)))) as [?|_]; [lia|].
    cbn [orb]. now rewrite getitem_at_length.
  - reflexivity.
Qed.

(** C5. [Bandits.select] returns [False], and draws nothing, for a number
    outside the bandits; for the number of a bandit it makes one
    [binomial(1, p)] draw with that bandit's probability and returns
    whether the draw is 1. *)
Theorem Bandits_select_spec `{Binary64} {G : Type} `{!NumpyRandom G} (self : Bandits) (g : G) :
  (forall number : Z,
      number < 0 \/ bandits_size self <= number ->
      Bandits_select self number g = Ok (false, g)) /\
  (forall number : Z,
      0 <= number < bandits_size self ->
      exists p : Q,
        bandits self !! Z.to_nat number = Some p /\
        Bandits_select self number g =
        Ok (fst (binomial 1 p g) =? 1, snd (binomial 1 p g))).
Proof.
  split.
  - intros number. apply Bandits_select_out_of_range.
  - intros number Hrange.
    destruct (lookup_lt_is_Some_2 (bandits self) (Z.to_nat number)) as [p Hp].
    { unfold bandits_size in Hrange. lia. }
    exists p. split; [exact Hp|].
    rewrite <- (Z2Nat.id number) at 1 by lia.
    now apply Bandits_select_in_range.
Qed.

Lemma Bandits_select_spec_witness :
  Bandits_select (G := Z) {| bandits := [0.2; 0.8]%Q; max_prob := 0.8%Q |} 5 42 =
  Ok (false, 42) /\
  exists p : Q,
    [0.2; 0.8]%Q !! Z.to_nat 1 = Some p /\
    Bandits_select (G := Z) {| bandits := [0.2; 0.8]%Q; max_prob := 0.8%Q |} 1 42 =
    Ok (fst (binomial 1 p 42) =? 1, snd (binomial 1 p 42)).
Proof.
  pose proof (Bandits_select_spec (G := Z)
                {| bandits := [0.2; 0.8]%Q; max_prob := 0.8%Q |} 42) as [Hout Hin].
  split.
  - apply Hout. right. vm_compute. discriminate.
  - apply Hin. vm_compute. split; [discriminate|reflexivity].
Defined.

(** C6. [Bandits(size)] raises [ValueError] for every size below 2; for
    every size from 2 on it succeeds, with [size] probabilities, each in
    the unit interval, and [max_prob] the largest of them. *)
Theorem Bandits_init_spec `{Binary64} {G : Type} `{!NumpyRandom G} (size : Z) (g : G) :
  (size < 2 -> Bandits_init size g = Raise ValueError) /\
  (2 <= size ->
   exists (self : Bandits) (g' : G),
     Bandits_init size g = Ok (self, g') /\
     Z.of_nat (length (bandits self)) = size /\
     Forall (fun p => (0 <= p)%Q /\ (p <= 1)%Q) (bandits self) /\
     In (max_prob self) (bandits self) /\
     Forall (fun p => (p <= max_prob self)%Q) (bandits self)).
Proof.
  split.
  - intros Hsize. unfold Bandits_init.
    destruct (Z.ltb_spec size 2) as [_|?]; [reflexivity|lia].
  - intros Hsize.
    destruct (Bandits_init_ok size g Hsize) as (self & Hinit & Hb & _ & Hin & Hmax).
    destruct (random_sample_spec (Z.to_nat size) g) as [Hlen Hall].
    exists self, (snd (random_sample (Z.to_nat size) g)).
    split; [exact Hinit|]. rewrite Hb. split; [rewrite Hlen; lia|]. split.
    + eapply Forall_impl; [exact Hall|].
      intros p [H0 H1]. split; [exact H0|now apply Qlt_le_weak].
    + rewrite <- Hb. split; [exact Hin|].
      apply List.Forall_forall. exact Hmax.
Qed.

Lemma Bandits_init_spec_witness :
  Bandits_init (G := Z) 1 42 = Raise ValueError /\
  exists (self : Bandits) (g' : Z),
    Bandits_init 3 42 = Ok (self, g') /\
    Z.of_nat (length (bandits self)) = 3 /\
    Forall (fun p => (0 <= p)%Q /\ (p <= 1)%Q) (bandits self) /\
    In (max_prob self) (bandits self) /\
    Forall (fun p => (p <= max_prob self)%Q) (bandits self).
Proof.
  split.
  - apply (Bandits_init_spec (G := Z) 1 42). lia.
  - apply (Bandits_init_spec (G := Z) 3 42). lia.
Defined.

(** * The posterior draws and the choice *)

(** C4. [draw_bandit_distribution] returns one value for each bandit, in
    the order of the bandits; the value of a bandit with counters
    [(wins, losses)] is one [beta(wins + 1, losses + 1)] draw, made after
    the draws of the bandits before it; for a bandit with no data that is
    a [beta(1, 1)] draw. *)
Theorem draw_bandit_distribution_spec `{Binary64} {G : Type} `{!NumpyRandom G}
    (banditStats : list BanditStat.t) (g : G) :
  length (fst (draw_bandit_distribution banditStats g)) = length banditStats /\
  (forall (i : nat) (s : BanditStat.t),
      banditStats !! i = Some s ->
      fst (draw_bandit_distribution banditStats g) !! i =
      Some (fst (beta (BanditStat.wins s + 1) (BanditStat.losses s + 1)
                   (snd (draw_bandit_distribution (take i banditStats) g))))) /\
  (forall i : nat,
      banditStats !! i = Some BanditStat.zero ->
      fst (draw_bandit_distribution banditStats g) !! i =
      Some (fst (beta 1 1 (snd (draw_bandit_distribution (take i banditStats) g))))).
Proof.
  unfold draw_bandit_distribution.
  split; [apply vectorize_length|]. split.
  - intros i s Hs.
    exact (vectorize_lookup draw_bandit_distribution_1 banditStats g i s Hs).
  - intros i Hs.
    exact (vectorize_lookup draw_bandit_distribution_1 banditStats g i _ Hs).
Qed.

Lemma draw_bandit_distribution_spec_witness :
  fst (draw_bandit_distribution (G := Z)
         [BanditStat.mk 2 1; BanditStat.zero; BanditStat.mk 0 3] 42) !! 2%nat =
  Some (fst (beta (G := Z) (0 + 1) (3 + 1)
               (snd (draw_bandit_distribution (G := Z)
                       (take 2 [BanditStat.mk 2 1; BanditStat.zero; BanditStat.mk 0 3])
                       42)))).
Proof.
  exact (proj1 (proj2 (draw_bandit_distribution_spec (G := Z)
                         [BanditStat.mk 2 1; BanditStat.zero; BanditStat.mk 0 3] 42))
           2%nat (BanditStat.mk 0 3) eq_refl).
Defined.

(** C3. On a non-empty array [argmax] returns the position of a largest
    value, and every value before that position is strictly smaller: ties
    go to the lowest index.  It is a function of the sample values alone
    (equal samples give the same position), and
    [argmax [0.5, 0.9, 0.9]] is 1. *)
Theorem argmax_first_maximum :
  (forall samples : list Q,
      samples <> [] ->
      exists (i : nat) (v : Q),
        argmax samples = Ok (Z.of_nat i) /\
        samples !! i = Some v /\
        (forall (j : nat) (y : Q), samples !! j = Some y -> (y <= v)%Q) /\
        (forall (j : nat) (y : Q),
            (j < i)%nat -> samples !! j = Some y -> (y < v)%Q)) /\
  (forall samples samples' : list Q,
      Forall2 Qeq samples samples' -> argmax samples = argmax samples') /\
  argmax [0.5; 0.9; 0.9]%Q = Ok 1.
Proof.
  split; [exact argmax_spec|]. split; [|reflexivity].
  intros samples samples' Heq. destruct Heq as [|x x' rest rest' Hx Hrest].
  - reflexivity.
  - cbn [argmax]. f_equal. now apply argmax_scan_Qeq.
Qed.

Lemma argmax_first_maximum_witness :
  exists (i : nat) (v : Q),
    argmax [0.3; 0.7; 0.1; 0.7]%Q = Ok (Z.of_nat i) /\
    [0.3; 0.7; 0.1; 0.7]%Q !! i = Some v /\
    (forall (j : nat) (y : Q), [0.3; 0.7; 0.1; 0.7]%Q !! j = Some y -> (y <= v)%Q) /\
    (forall (j : nat) (y : Q),
        (j < i)%nat -> [0.3; 0.7; 0.1; 0.7]%Q !! j = Some y -> (y < v)%Q).
Proof.
  apply (proj1 argmax_first_maximum). discriminate.
Defined.

(** * The simulation *)

(** C2. A run on at least two bandits ends with one record for each
    round, [max(1, trial_count)] of them, and in the record of round [i]
    the wins and the losses add up to [i + 1]. *)
Theorem overallStats_totals `{Binary64} {G : Type} `{!NumpyRandom G}
    (bandit_count trial_count : Z) (g : G) :
  2 <= bandit_count ->
  exists the_bandits banditStats overallStats g',
    main bandit_count trial_count g =
    Ok (the_bandits, (banditStats, overallStats, g')) /\
    Z.of_nat (length overallStats) = Z.max 1 trial_count /\
    forall (i : nat) (r : OverallStat.t),
      overallStats !! i = Some r ->
      OverallStat.wins r + OverallStat.losses r = Z.of_nat i + 1.
Proof.
  intros Hcount.
  destruct (main_runs bandit_count trial_count g Hcount)
    as (b & bs & os & g' & Hmain & _ & _ & Hinv).
  exists b, bs, os, g'. split; [exact Hmain|].
  pose proof (done_overall_length _ _ _ _ _ Hinv) as Hlen. split; [lia|].
  intros i r Hr. apply (done_totals _ _ _ _ _ Hinv i r); [|exact Hr].
  apply lookup_lt_Some in Hr. lia.
Qed.

Lemma overallStats_totals_witness :
  exists the_bandits banditStats overallStats g',
    main (G := Z) 3 5 42 = Ok (the_bandits, (banditStats, overallStats, g')) /\
    Z.of_nat (length overallStats) = Z.max 1 5 /\
    forall (i : nat) (r : OverallStat.t),
      overallStats !! i = Some r ->
      OverallStat.wins r + OverallStat.losses r = Z.of_nat i + 1.
Proof.
  apply (overallStats_totals (G := Z) 3 5 42). lia.
Defined.

(** C7. A trial count below 1 is replaced by 1, not rejected: the run is
    the run for one trial.  With a trial count of 1 or less and at least
    two bandits the run plays one round and ends normally with exactly one
    record, that of the round: the bandit chosen from the first draws,
    one win or one loss, and that bandit's regret; the counters hold that
    one pull. *)
Theorem trial_count_coerced `{Binary64} {G : Type} `{!NumpyRandom G}
    (bandit_count trial_count : Z) (g : G) :
  (trial_count < 1 -> main bandit_count trial_count g = main bandit_count 1 g) /\
  (2 <= bandit_count ->
   trial_count <= 1 ->
   exists the_bandits g1 (selected_bandit : Z) (p : Q) (rewarded : bool) g',
     Bandits_init bandit_count g = Ok (the_bandits, g1) /\
     argmax (fst (draw_bandit_distribution
                    (zeros BanditStat.zero bandit_count) g1)) =
     Ok selected_bandit /\
     0 <= selected_bandit < bandit_count /\
     bandits the_bandits !! Z.to_nat selected_bandit = Some p /\
     Bandits_select the_bandits selected_bandit
       (snd (draw_bandit_distribution
               (zeros BanditStat.zero bandit_count) g1)) =
     Ok (rewarded, g') /\
     main bandit_count trial_count g =
     Ok (the_bandits,
         (<[Z.to_nat selected_bandit :=
              if rewarded then BanditStat.mk 1 0 else BanditStat.mk 0 1]>
            (zeros BanditStat.zero bandit_count),
          [OverallStat.mk selected_bandit
             (if rewarded then 1 else 0) (if rewarded then 0 else 1)
             (fadd 0 (fsub (max_prob the_bandits) p))],
          g'))).
Proof.
  split.
  - intros Hlow. unfold main.
    destruct (Z.ltb_spec trial_count 1) as [_|?]; [reflexivity|lia].
  - intros Hcount Hone.
    destruct (Bandits_init_ok bandit_count g Hcount) as (b & Hinit & Hb & Hvalid).
    set (g1 := snd (random_sample (Z.to_nat bandit_count) g)) in *.
    assert (Hlen : length (zeros BanditStat.zero bandit_count) = length (bandits b)).
    { unfold zeros. rewrite length_replicate, Hb.
      now destruct (random_sample_spec (Z.to_nat bandit_count) g) as [-> _]. }
    destruct (loop_body_spec b 0 (zeros BanditStat.zero bandit_count)
                [OverallStat.zero] g1 OverallStat.zero Hlen)
      as (sel & s & p & Hsel & Hs & Hp & Hrun).
    { unfold zeros. replace (Z.to_nat bandit_count) with (S (Z.to_nat bandit_count - 1)) by lia.
      discriminate. }
    { cbn. lia. }
    { reflexivity. }
    unfold zeros in Hs. apply lookup_replicate_1 in Hs as [-> Hsel_lt].
    cbv zeta in Hrun.
    set (rewarded := fst (binomial 1 p
                            (snd (draw_bandit_distribution
                                    (zeros BanditStat.zero bandit_count) g1))) =? 1)
      in Hrun.
    exists b, g1, (Z.of_nat sel), p, rewarded. eexists.
    split; [exact Hinit|]. split; [exact Hsel|]. split; [lia|].
    rewrite Nat2Z.id. split; [exact Hp|].
    split; [now apply Bandits_select_in_range|].
    unfold main.
    replace (if trial_count <? 1 then 1 else trial_count) with 1
      by (destruct (Z.ltb_spec trial_count 1); lia).
    rewrite Hinit. cbn [bind]. fold g1.
    change (range 1) with [0]. change (zeros OverallStat.zero 1) with [OverallStat.zero].
    cbn [loop]. change 0 with (Z.of_nat 0) at 1. rewrite Hrun. cbn [bind].
    now destruct rewarded.
Qed.

Lemma trial_count_coerced_witness :
  main (G := Z) 2 (-4) 7 = main 2 1 7 /\
  exists the_bandits g1 (selected_bandit : Z) (p : Q) (rewarded : bool) g',
    Bandits_init (G := Z) 2 7 = Ok (the_bandits, g1) /\
    argmax (fst (draw_bandit_distribution (zeros BanditStat.zero 2) g1)) =
    Ok selected_bandit /\
    0 <= selected_bandit < 2 /\
    bandits the_bandits !! Z.to_nat selected_bandit = Some p /\
    Bandits_select the_bandits selected_bandit
      (snd (draw_bandit_distribution (zeros BanditStat.zero 2) g1)) =
    Ok (rewarded, g') /\
    main (G := Z) 2 (-4) 7 =
    Ok (the_bandits,
        (<[Z.to_nat selected_bandit :=
             if rewarded then BanditStat.mk 1 0 else BanditStat.mk 0 1]>
           (zeros BanditStat.zero 2),
         [OverallStat.mk selected_bandit
            (if rewarded then 1 else 0) (if rewarded then 0 else 1)
            (fadd 0 (fsub (max_prob the_bandits) p))],
         g')).
Proof.
  split.
  - apply (trial_count_coerced (G := Z) 2 (-4) 7). lia.
  - apply (trial_count_coerced (G := Z) 2 (-4) 7); lia.
Defined.

(** C8. The regret of the bandit chosen in a round is
    [max_prob - bandits[number]], which is not negative, so the total
    regret never goes down from one round's record to the next. *)
Theorem cumulative_regret_monotone `{Binary64} {G : Type} `{!NumpyRandom G}
    (bandit_count trial_count : Z) (g : G) :
  2 <= bandit_count ->
  exists the_bandits banditStats overallStats g',
    main bandit_count trial_count g =
    Ok (the_bandits, (banditStats, overallStats, g')) /\
    (forall (number : nat) (p : Q),
        bandits the_bandits !! number = Some p ->
        Bandits_regret the_bandits (Z.of_nat number) =
        Ok (fsub (max_prob the_bandits) p) /\
        (0 <= fsub (max_prob the_bandits) p)%Q) /\
    (forall (i : nat) (r r' : OverallStat.t),
        overallStats !! i = Some r ->
        overallStats !! S i = Some r' ->
        (OverallStat.regret r <= OverallStat.regret r')%Q).
Proof.
  intros Hcount.
  destruct (main_runs bandit_count trial_count g Hcount)
    as (b & bs & os & g' & Hmain & Hvalid & _ & Hinv).
  exists b, bs, os, g'. split; [exact Hmain|]. split.
  - intros number p Hp. split.
    + now apply Bandits_regret_in_range.
    + eapply Bandits_regret_nonneg; eassumption.
  - intros i r r' Hr Hr'.
    apply (done_regret _ _ _ _ _ Hinv i r r'); [|exact Hr|exact Hr'].
    apply lookup_lt_Some in Hr'.
    rewrite (done_overall_length _ _ _ _ _ Hinv) in Hr'. exact Hr'.
Qed.

Lemma cumulative_regret_monotone_witness :
  exists the_bandits banditStats overallStats g',
    main (G := Z) 3 6 42 = Ok (the_bandits, (banditStats, overallStats, g')) /\
    (forall (number : nat) (p : Q),
        bandits the_bandits !! number = Some p ->
        Bandits_regret the_bandits (Z.of_nat number) =
        Ok (fsub (max_prob the_bandits) p) /\
        (0 <= fsub (max_prob the_bandits) p)%Q) /\
    (forall (i : nat) (r r' : OverallStat.t),
        overallStats !! i = Some r ->
        overallStats !! S i = Some r' ->
        (OverallStat.regret r <= OverallStat.regret r')%Q).
Proof.
  apply (cumulative_regret_monotone (G := Z) 3 6 42). lia.
Defined.

(** C9. A round writes the counters of one bandit only, the chosen one,
    adding one to its wins when the trial paid and one to its losses when
    it did not, and no counter is ever set back; so at the end of a run
    the wins and losses of every bandit add up to the number of rounds in
    which it was chosen. *)
Theorem banditStats_count_selections `{Binary64} {G : Type} `{!NumpyRandom G} :
  (forall (the_bandits : Bandits) (i : nat) (banditStats : list BanditStat.t)
          (overallStats : list OverallStat.t) (g : G),
      length banditStats = length (bandits the_bandits) ->
      banditStats <> [] ->
      (i < length overallStats)%nat ->
      exists (sel : nat) (s : BanditStat.t) (rewarded : bool) (r : OverallStat.t)
             banditStats' overallStats' g',
        loop_body the_bandits (Z.of_nat i) (banditStats, overallStats, g) =
        Ok (banditStats', overallStats', g') /\
        overallStats' !! i = Some r /\
        OverallStat.bandit r = Z.of_nat sel /\
        Bandits_select the_bandits (Z.of_nat sel)
          (snd (draw_bandit_distribution banditStats g)) = Ok (rewarded, g') /\
        banditStats !! sel = Some s /\
        banditStats' !! sel =
        Some (if rewarded
              then BanditStat.mk (BanditStat.wins s + 1) (BanditStat.losses s)
              else BanditStat.mk (BanditStat.wins s) (BanditStat.losses s + 1)) /\
        (forall a : nat, a <> sel -> banditStats' !! a = banditStats !! a) /\
        length banditStats' = length banditStats) /\
  (forall (bandit_count trial_count : Z) (g : G),
      2 <= bandit_count ->
      exists the_bandits banditStats overallStats g',
        main bandit_count trial_count g =
        Ok (the_bandits, (banditStats, overallStats, g')) /\
        Z.of_nat (length banditStats) = bandit_count /\
        forall (a : nat) (s : BanditStat.t),
          banditStats !! a = Some s ->
          BanditStat.wins s + BanditStat.losses s =
          times_selected (Z.of_nat a) overallStats).
Proof.
  split.
  - intros b i bs os g Hlen Hne Hi.
    destruct (lookup_lt_is_Some_2 os (pred i) ltac:(lia)) as [prev Hprev].
    destruct (loop_body_spec b i bs os g prev Hlen Hne Hi Hprev)
      as (sel & s & p & _ & Hs & Hp & Hrun).
    cbv zeta in Hrun.
    exists sel, s. do 5 eexists. split; [exact Hrun|].
    split; [now apply list_lookup_insert_eq|].
    split; [apply round_record_bandit|].
    split; [now apply Bandits_select_in_range|].
    split; [exact Hs|]. split; [|split].
    + rewrite list_lookup_insert_eq by (eapply lookup_lt_Some, Hs).
      unfold pulled. now destruct (_ =? 1).
    + intros a Ha. now apply list_lookup_insert_ne.
    + apply length_insert.
  - intros bandit_count trial_count g Hcount.
    destruct (main_runs bandit_count trial_count g Hcount)
      as (b & bs & os & g' & Hmain & _ & Hsize & Hinv).
    exists b, bs, os, g'. split; [exact Hmain|]. split.
    + rewrite (done_stats_length _ _ _ _ _ Hinv). exact Hsize.
    + intros a s Hs.
      rewrite (done_pulls _ _ _ _ _ Hinv a s Hs).
      rewrite take_ge; [reflexivity|].
      now rewrite (done_overall_length _ _ _ _ _ Hinv).
Qed.

Lemma banditStats_count_selections_witness :
  exists the_bandits banditStats overallStats g',
    main (G := Z) 3 6 42 = Ok (the_bandits, (banditStats, overallStats, g')) /\
    Z.of_nat (length banditStats) = 3 /\
    forall (a : nat) (s : BanditStat.t),
      banditStats !! a = Some s ->
      BanditStat.wins s + BanditStat.losses s =
      times_selected (Z.of_nat a) overallStats.
Proof.
  apply (proj2 (banditStats_count_selections (G := Z)) 3 6 42). lia.
Defined.

(** C10. In every round the chosen bandit is the [argmax] of one draw for
    each bandit, so its number is that of a bandit: [Bandits.select] and
    [Bandits.regret] take their in-range branch, and no array access of
    the round raises.  A run on at least two bandits therefore ends
    without an exception, and every record holds the number of a
    bandit. *)
Theorem selected_bandit_in_range `{Binary64} {G : Type} `{!NumpyRandom G} :
  (forall (the_bandits : Bandits) (i : nat) (banditStats : list BanditStat.t)
          (overallStats : list OverallStat.t) (g : G),
      length banditStats = length (bandits the_bandits) ->
      banditStats <> [] ->
      (i < length overallStats)%nat ->
      exists (selected_bandit : Z) (p : Q) (st : loop_state G),
        argmax (fst (draw_bandit_distribution banditStats g)) = Ok selected_bandit /\
        0 <= selected_bandit < bandits_size the_bandits /\
        bandits the_bandits !! Z.to_nat selected_bandit = Some p /\
        Bandits_select the_bandits selected_bandit
          (snd (draw_bandit_distribution banditStats g)) =
        Ok (fst (binomial 1 p (snd (draw_bandit_distribution banditStats g))) =? 1,
            snd (binomial 1 p (snd (draw_bandit_distribution banditStats g)))) /\
        Bandits_regret the_bandits selected_bandit =
        Ok (fsub (max_prob the_bandits) p) /\
        loop_body the_bandits (Z.of_nat i) (banditStats, overallStats, g) = Ok st) /\
  (forall (bandit_count trial_count : Z) (g : G),
      2 <= bandit_count ->
      exists the_bandits banditStats overallStats g',
        main bandit_count trial_count g =
        Ok (the_bandits, (banditStats, overallStats, g')) /\
        bandits_size the_bandits = bandit_count /\
        forall (i : nat) (r : OverallStat.t),
          overallStats !! i = Some r ->
          0 <= OverallStat.bandit r < bandit_count).
Proof.
  split.
  - intros b i bs os g Hlen Hne Hi.
    destruct (lookup_lt_is_Some_2 os (pred i) ltac:(lia)) as [prev Hprev].
    destruct (loop_body_spec b i bs os g prev Hlen Hne Hi Hprev)
      as (sel & s & p & Hsel & Hs & Hp & Hrun).
    cbv zeta in Hrun.
    exists (Z.of_nat sel), p. eexists. split; [exact Hsel|].
    rewrite Nat2Z.id. split.
    + apply lookup_lt_Some in Hp. unfold bandits_size. lia.
    + split; [exact Hp|].
      split; [now apply Bandits_select_in_range|].
      split; [now apply Bandits_regret_in_range|exact Hrun].
  - intros bandit_count trial_count g Hcount.
    destruct (main_runs bandit_count trial_count g Hcount)
      as (b & bs & os & g' & Hmain & _ & Hsize & Hinv).
    exists b, bs, os, g'. split; [exact Hmain|]. split; [exact Hsize|].
    intros i r Hr. rewrite <- Hsize.
    apply (done_bandit _ _ _ _ _ Hinv i r); [|exact Hr].
    apply lookup_lt_Some in Hr.
    now rewrite (done_overall_length _ _ _ _ _ Hinv) in Hr.
Qed.

Lemma selected_bandit_in_range_witness :
  exists the_bandits banditStats overallStats g',
    main (G := Z) 3 6 42 = Ok (the_bandits, (banditStats, overallStats, g')) /\
    bandits_size the_bandits = 3 /\
    forall (i : nat) (r : OverallStat.t),
      overallStats !! i = Some r ->
      0 <= OverallStat.bandit r < 3.
Proof.
  apply (proj2 (selected_bandit_in_range (G := Z)) 3 6 42). lia.
Defined.


(** * Further properties of the program *)

(** ** What a round does to a state of the run *)

Section Rounds.
Context `{Binary64} {G : Type} `{!NumpyRandom G}.

(** A round that ends normally, read backwards: the state it produced is
    the state before it with one bandit's counters and the round's record
    written. *)
Lemma loop_body_inv the_bandits n i banditStats overallStats (g : G)
    banditStats' overallStats' g' :
  rounds_done the_bandits n i banditStats overallStats ->
  Bandits_valid the_bandits ->
  (i < n)%nat ->
  loop_body the_bandits (Z.of_nat i) (banditStats, overallStats, g) =
  Ok (banditStats', overallStats', g') ->
  exists (prev : OverallStat.t) (sel : nat) (s : BanditStat.t) (p : Q)
         (rewarded : bool),
    record_before overallStats i prev /\
    OverallStat.wins prev + OverallStat.losses prev = Z.of_nat i /\
    banditStats !! sel = Some s /\
    bandits the_bandits !! sel = Some p /\
    banditStats' = <[sel := pulled rewarded s]> banditStats /\
    overallStats' =
    <[i := round_record prev (Z.of_nat sel) rewarded
             (fsub (max_prob the_bandits) p)]> overallStats.
Proof.
  intros Hinv Hvalid Hi Hrun.
  destruct (rounds_done_prev _ _ _ _ _ Hinv Hi) as (prev & Hprev & Hprev_tot).
  pose proof (done_overall_length _ _ _ _ _ Hinv) as Hlen_o.
  pose proof (done_stats_length _ _ _ _ _ Hinv) as Hlen_s.
  assert (Hne : banditStats <> []).
  { destruct Hvalid as [Hb _]. intros ->. cbn in Hlen_s.
    destruct (bandits the_bandits); [congruence|discriminate]. }
  destruct (loop_body_spec the_bandits i banditStats overallStats g prev)
    as (sel & s & p & _ & Hs & Hp & Hspec); try assumption; [lia|].
  cbv zeta in Hspec. rewrite Hspec in Hrun. injection Hrun as <- <- <-.
  exists prev, sel, s, p. eexists.
  split; [|split; [exact Hprev_tot|repeat split; eassumption || reflexivity]].
  destruct i as [|k]; cbn [record_before pred] in *; [|exact Hprev].
  rewrite (done_rest_zero _ _ _ _ _ Hinv 0%nat) in Hprev by lia.
  now injection Hprev as <-.
Qed.

(** A property of the state that every round keeps holds after any number
    of rounds. *)
Lemma loop_rounds_inv the_bandits n
    (P : nat -> list BanditStat.t -> list OverallStat.t -> Prop) :
  Bandits_valid the_bandits ->
  (forall i banditStats overallStats (g : G) banditStats' overallStats' g',
      (i < n)%nat ->
      rounds_done the_bandits n i banditStats overallStats ->
      P i banditStats overallStats ->
      loop_body the_bandits (Z.of_nat i) (banditStats, overallStats, g) =
      Ok (banditStats', overallStats', g') ->
      P (S i) banditStats' overallStats') ->
  forall (m i : nat) banditStats overallStats (g : G),
    (i + m <= n)%nat ->
    rounds_done the_bandits n i banditStats overallStats ->
    P i banditStats overallStats ->
    exists banditStats' overallStats' g',
      loop the_bandits (map Z.of_nat (seq i m)) (banditStats, overallStats, g) =
      Ok (banditStats', overallStats', g') /\
      rounds_done the_bandits n (i + m) banditStats' overallStats' /\
      P (i + m)%nat banditStats' overallStats'.
Proof.
  intros Hvalid Hkeep.
  induction m as [|m IH]; intros i bs os g Hle Hinv HP.
  - do 3 eexists. rewrite Nat.add_0_r. split; [reflexivity|]. now split.
  - destruct (rounds_done_step _ _ _ _ _ g Hvalid Hinv)
      as (bs1 & os1 & g1 & Hstep & Hinv1); [lia|].
    assert (HP1 : P (S i) bs1 os1).
    { eapply (Hkeep i bs os g); try eassumption. lia. }
    destruct (IH (S i) bs1 os1 g1) as (bs2 & os2 & g2 & Hloop & Hinv2 & HP2);
      [lia|exact Hinv1|exact HP1|].
    exists bs2, os2, g2.
    replace (i + S m)%nat with (S i + m)%nat by lia.
    split; [|now split].
    cbn [seq map loop]. rewrite Hstep. cbn [bind]. exact Hloop.
Qed.

(** The same for the whole script: a property that holds of the zeroed
    arrays and that every round keeps holds of the arrays the script ends
    with. *)
Lemma main_runs_inv
    (P : Bandits -> nat -> list BanditStat.t -> list OverallStat.t -> Prop)
    (bandit_count trial_count : Z) (g : G) :
  2 <= bandit_count ->
  (forall the_bandits,
      Bandits_valid the_bandits ->
      bandits_size the_bandits = bandit_count ->
      P the_bandits 0%nat (zeros BanditStat.zero bandit_count)
        (zeros OverallStat.zero (Z.max 1 trial_count))) ->
  (forall the_bandits i banditStats overallStats (gi : G)
          banditStats' overallStats' g',
      Bandits_valid the_bandits ->
      Forall (fun p => (0 <= p)%Q /\ (p < 1)%Q) (bandits the_bandits) ->
      (i < Z.to_nat (Z.max 1 trial_count))%nat ->
      rounds_done the_bandits (Z.to_nat (Z.max 1 trial_count)) i
        banditStats overallStats ->
      P the_bandits i banditStats overallStats ->
      loop_body the_bandits (Z.of_nat i) (banditStats, overallStats, gi) =
      Ok (banditStats', overallStats', g') ->
      P the_bandits (S i) banditStats' overallStats') ->
  exists the_bandits banditStats overallStats g',
    main bandit_count trial_count g =
    Ok (the_bandits, (banditStats, overallStats, g')) /\
    Bandits_valid the_bandits /\
    bandits_size the_bandits = bandit_count /\
    Forall (fun p => (0 <= p)%Q /\ (p < 1)%Q) (bandits the_bandits) /\
    rounds_done the_bandits (Z.to_nat (Z.max 1 trial_count))
      (Z.to_nat (Z.max 1 trial_count)) banditStats overallStats /\
    P the_bandits (Z.to_nat (Z.max 1 trial_count)) banditStats overallStats.
Proof.
  intros Hcount Hstart Hkeep. unfold main.
  replace (if trial_count <? 1 then 1 else trial_count) with (Z.max 1 trial_count)
    by (destruct (Z.ltb_spec trial_count 1); lia).
  set (n := Z.max 1 trial_count) in *.
  destruct (Bandits_init_ok bandit_count g Hcount) as (b & Hinit & Hb & Hvalid).
  rewrite Hinit. cbn [bind].
  destruct (random_sample_spec (Z.to_nat bandit_count) g) as [Hlen Hunit].
  rewrite <- Hb in Hlen, Hunit.
  assert (Hsize : bandits_size b = bandit_count) by (unfold bandits_size; lia).
  pose proof (rounds_done_start b n) as Hzero. rewrite Hsize in Hzero.
  destruct (loop_rounds_inv b (Z.to_nat n) (P b) Hvalid
              ltac:(intros; eapply Hkeep; eassumption)
              (Z.to_nat n) 0%nat _ _
              (snd (random_sample (Z.to_nat bandit_count) g))
              ltac:(lia) Hzero (Hstart b Hvalid Hsize))
    as (bs & os & g' & Hloop & Hinv & HP).
  cbn [Nat.add] in Hinv, HP.
  exists b, bs, os, g'. unfold range. rewrite Hloop. cbn [bind].
  split; [reflexivity|]. repeat (split; [assumption|]). exact HP.
Qed.

End Rounds.

(** ** The bandits, further *)

(** X1. [Bandits.regret] raises for one number only, the size of the set
    of bandits, and then it is [IndexError]; for every other integer it
    returns a value. *)
Theorem Bandits_regret_raises_iff `{Binary64} (self : Bandits) (number : Z) :
  (Bandits_regret self number = Raise IndexError <-> number = bandits_size self) /\
  (number <> bandits_size self -> exists r : Q, Bandits_regret self number = Ok r).
Proof.
  assert (Hother : number <> bandits_size self ->
                   exists r : Q, Bandits_regret self number = Ok r).
  { intros Hne.
    destruct (Z_lt_le_dec number 0) as [Hneg|Hpos];
      [|destruct (Z_lt_le_dec (bandits_size self) number) as [Hbig|Hsmall]].
    - exists (max_prob self). apply Bandits_regret_out_of_range. now left.
    - exists (max_prob self). apply Bandits_regret_out_of_range. now right.
    - destruct (lookup_lt_is_Some_2 (bandits self) (Z.to_nat number)) as [p Hp].
      { unfold bandits_size in *. lia. }
      exists (fsub (max_prob self) p).
      rewrite <- (Z2Nat.id number) by lia.
      now apply Bandits_regret_in_range. }
  split; [|exact Hother]. split.
  - intros Hraise.
    destruct (Z.eq_dec number (bandits_size self)) as [Heq|Hne]; [exact Heq|].
    destruct (Hother Hne) as [r Hr]. congruence.
  - intros ->. unfold Bandits_regret, bandits_size.
    destruct (Z.ltb_spec (Z.of_nat (length (bandits self))) 0) as [?|_]; [lia|].
    destruct (Z.gtb_spec (Z.of_nat (length (bandits self)))
                (Z.of_nat (length (bandits self)))) as [?|_]; [lia|].
    cbn [orb]. now rewrite getitem_at_length.
Qed.

Lemma Bandits_regret_raises_iff_witness :
  exists r : Q,
    Bandits_regret {| bandits := [0.2; 0.8]%Q; max_prob := 0.8%Q |} 7 = Ok r.
Proof.
  apply (Bandits_regret_raises_iff
           {| bandits := [0.2; 0.8]%Q; max_prob := 0.8%Q |} 7).
  vm_compute. discriminate.
Defined.

(** X2. [Bandits.select] never raises, whatever integer it is given, and
    it reports a reward only for the number of a bandit. *)
Theorem Bandits_select_never_raises `{Binary64} {G : Type} `{!NumpyRandom G}
    (self : Bandits) (number : Z) (g : G) :
  exists (rewarded : bool) (g' : G),
    Bandits_select self number g = Ok (rewarded, g') /\
    (rewarded = true -> 0 <= number < bandits_size self).
Proof.
  destruct (Z_lt_le_dec number 0) as [Hneg|Hpos];
    [|destruct (Z_lt_le_dec number (bandits_size self)) as [Hin|Hbig]].
  - exists false, g. split; [|discriminate].
    apply Bandits_select_out_of_range. now left.
  - destruct (lookup_lt_is_Some_2 (bandits self) (Z.to_nat number)) as [p Hp].
    { unfold bandits_size in *. lia. }
    do 2 eexists. split; [|intros _; lia].
    rewrite <- (Z2Nat.id number) by lia.
    exact (Bandits_select_in_range self _ p g Hp).
  - exists false, g. split; [|discriminate].
    apply Bandits_select_out_of_range. now right.
Qed.

(** X3. A set of at least two bandits has a best bandit, one whose regret
    is zero, and the regret of every bandit lies between 0 and 1, 1
    excluded. *)
Theorem Bandits_init_regrets `{Binary64} {G : Type} `{!NumpyRandom G} (size : Z) (g : G) :
  2 <= size ->
  exists (self : Bandits) (g' : G),
    Bandits_init size g = Ok (self, g') /\
    (exists (number : Z) (r : Q),
        0 <= number < size /\
        Bandits_regret self number = Ok r /\ (r == 0)%Q) /\
    (forall number : Z,
        0 <= number < size ->
        exists r : Q,
          Bandits_regret self number = Ok r /\ (0 <= r)%Q /\ (r < 1)%Q).
Proof.
  intros Hsize.
  destruct (Bandits_init_ok size g Hsize) as (self & Hinit & Hb & Hvalid).
  destruct (random_sample_spec (Z.to_nat size) g) as [Hlen Hunit].
  rewrite <- Hb in Hlen, Hunit.
  exists self, (snd (random_sample (Z.to_nat size) g)).
  split; [exact Hinit|].
  pose proof Hvalid as (_ & Hin & Hmax).
  apply list_elem_of_In, list_elem_of_lookup_1 in Hin as [best Hbest].
  pose proof (Forall_lookup_1 _ _ _ _ Hunit Hbest) as [_ Hmax1].
  assert (Hfloat : (rnd (max_prob self) == max_prob self)%Q).
  { pose proof (random_sample_float (Z.to_nat size) g) as Hfloats.
    rewrite <- Hb in Hfloats.
    exact (Forall_lookup_1 _ _ _ _ Hfloats Hbest). }
  split.
  - exists (Z.of_nat best), (fsub (max_prob self) (max_prob self)).
    split; [apply lookup_lt_Some in Hbest; lia|].
    split; [now apply Bandits_regret_in_range|apply fsub_self].
  - intros number Hrange.
    destruct (lookup_lt_is_Some_2 (bandits self) (Z.to_nat number)) as [p Hp];
      [lia|].
    exists (fsub (max_prob self) p). split.
    + rewrite <- (Z2Nat.id number) by lia. now apply Bandits_regret_in_range.
    + pose proof (Bandits_regret_nonneg self _ p Hvalid Hp) as Hnonneg.
      pose proof (Forall_lookup_1 _ _ _ _ Hunit Hp) as [Hp0 _].
      split; [exact Hnonneg|].
      apply Qle_lt_trans with (max_prob self); [|exact Hmax1].
      now apply fsub_le.
Qed.

Lemma Bandits_init_regrets_witness :
  exists (self : Bandits) (g' : Z),
    Bandits_init 4 42 = Ok (self, g') /\
    (exists (number : Z) (r : Q),
        0 <= number < 4 /\
        Bandits_regret self number = Ok r /\ (r == 0)%Q) /\
    (forall number : Z,
        0 <= number < 4 ->
        exists r : Q,
          Bandits_regret self number = Ok r /\ (0 <= r)%Q /\ (r < 1)%Q).
Proof.
  apply (Bandits_init_regrets (G := Z) 4 42). lia.
Defined.

(** ** The records of a run, one after the other *)

Lemma record_before_insert (overallStats : list OverallStat.t) (i j : nat)
    (rec prev : OverallStat.t) :
  (j <= i)%nat ->
  record_before (<[i := rec]> overallStats) j prev ->
  record_before overallStats j prev.
Proof.
  intros Hle. destruct j as [|k]; cbn [record_before]; [auto|].
  now rewrite list_lookup_insert_ne by lia.
Qed.

Lemma record_before_unique (overallStats : list OverallStat.t) (i : nat)
    (prev prev' : OverallStat.t) :
  record_before overallStats i prev ->
  record_before overallStats i prev' ->
  prev' = prev.
Proof.
  destruct i as [|k]; cbn [record_before]; congruence.
Qed.

Section Linked.
Context `{Binary64} {G : Type} `{!NumpyRandom G}.

Lemma rounds_linked_step the_bandits n i banditStats overallStats (g : G)
    banditStats' overallStats' g' :
  Bandits_valid the_bandits ->
  (i < n)%nat ->
  rounds_done the_bandits n i banditStats overallStats ->
  rounds_linked the_bandits i overallStats ->
  loop_body the_bandits (Z.of_nat i) (banditStats, overallStats, g) =
  Ok (banditStats', overallStats', g') ->
  rounds_linked the_bandits (S i) overallStats'.
Proof.
  intros Hvalid Hi Hinv Hlinked Hrun.
  destruct (loop_body_inv _ _ _ _ _ _ _ _ _ Hinv Hvalid Hi Hrun)
    as (prev & sel & s & p & rewarded & Hbefore & _ & _ & Hp & _ & ->).
  pose proof (done_overall_length _ _ _ _ _ Hinv) as Hlen.
  intros j r prev' Hj Hr Hbefore'.
  apply record_before_insert in Hbefore'; [|lia].
  destruct (decide (j = i)) as [->|Hne].
  - rewrite list_lookup_insert_eq in Hr by lia. injection Hr as <-.
    rewrite (record_before_unique _ _ _ _ Hbefore Hbefore').
    exists p, rewarded. rewrite round_record_bandit, Nat2Z.id. now split.
  - rewrite list_lookup_insert_ne in Hr by lia.
    apply (Hlinked j r prev'); [lia|exact Hr|exact Hbefore'].
Qed.

Lemma main_runs_linked (bandit_count trial_count : Z) (g : G) :
  2 <= bandit_count ->
  exists the_bandits banditStats overallStats g',
    main bandit_count trial_count g =
    Ok (the_bandits, (banditStats, overallStats, g')) /\
    Bandits_valid the_bandits /\
    Forall (fun p => (0 <= p)%Q /\ (p < 1)%Q) (bandits the_bandits) /\
    bandits_size the_bandits = bandit_count /\
    rounds_done the_bandits (length overallStats) (length overallStats)
      banditStats overallStats /\
    rounds_linked the_bandits (length overallStats) overallStats.
Proof.
  intros Hcount.
  destruct (main_runs_inv (fun b i _ os => rounds_linked b i os)
              bandit_count trial_count g Hcount)
    as (b & bs & os & g' & Hmain & Hvalid & Hsize & Hunit & Hinv & Hlinked).
  - intros b _ _ j r prev Hj. lia.
  - intros b i bs os gi bs' os' g' Hvalid _ Hi Hinv Hlinked Hrun.
    eapply rounds_linked_step; eassumption.
  - exists b, bs, os, g'.
    pose proof (done_overall_length _ _ _ _ _ Hinv) as Hlen.
    rewrite Hlen. repeat (split; [assumption|]). exact Hlinked.
Qed.

End Linked.

Lemma rounds_linked_regret_bounds `{Binary64} (the_bandits : Bandits)
    (overallStats : list OverallStat.t) :
  Bandits_valid the_bandits ->
  Forall (fun p => (0 <= p)%Q /\ (p < 1)%Q) (bandits the_bandits) ->
  rounds_linked the_bandits (length overallStats) overallStats ->
  forall (i : nat) (r : OverallStat.t),
    overallStats !! i = Some r ->
    Z.of_nat i + 1 <= 2 ^ 53 ->
    (0 <= OverallStat.regret r)%Q /\
    (OverallStat.regret r <= inject_Z (Z.of_nat i + 1))%Q.
Proof.
  intros Hvalid Hunit Hlinked.
  assert (Hround : forall (i : nat) (r prev : OverallStat.t),
             overallStats !! i = Some r ->
             record_before overallStats i prev ->
             exists x : Q,
               OverallStat.regret r = fadd (OverallStat.regret prev) x /\
               (0 <= x)%Q /\ (x <= 1)%Q).
  { intros i r prev Hr Hbefore.
    destruct (Hlinked i r prev) as (p & rewarded & Hp & Heq);
      [eapply lookup_lt_Some, Hr|exact Hr|exact Hbefore|].
    exists (fsub (max_prob the_bandits) p).
    split; [rewrite Heq at 1; apply round_record_regret|].
    pose proof (Bandits_regret_nonneg the_bandits _ p Hvalid Hp) as Hnonneg.
    pose proof (Forall_lookup_1 _ _ _ _ Hunit Hp) as [Hp0 _].
    destruct Hvalid as (_ & Hin & _).
    apply list_elem_of_In, list_elem_of_lookup_1 in Hin as [best Hbest].
    pose proof (Forall_lookup_1 _ _ _ _ Hunit Hbest) as [_ Hmax1].
    split; [exact Hnonneg|].
    unfold fsub. rewrite <- rnd_1. apply rnd_le. lra. }
  induction i as [|k IH]; intros r Hr Hsmall.
  - destruct (Hround 0%nat r OverallStat.zero Hr eq_refl) as (x & -> & Hx0 & Hx1).
    cbn [OverallStat.regret OverallStat.zero].
    apply (fadd_bound 0 x 0); try lra; try lia. apply Qle_refl.
  - destruct (lookup_lt_is_Some_2 overallStats k) as [prev Hprev].
    { apply lookup_lt_Some in Hr. lia. }
    destruct (IH prev Hprev ltac:(lia)) as [Hlow Hhigh].
    destruct (Hround (S k) r prev Hr Hprev) as (x & -> & Hx0 & Hx1).
    replace (Z.of_nat (S k) + 1) with ((Z.of_nat k + 1) + 1) by lia.
    apply fadd_bound; try assumption; lia.
Qed.

(** X4. In a run every record is the one before it (the zero record for
    the first) with the round's outcome added: it names a bandit, the
    total regret is the float sum of the total before and that bandit's
    regret, and exactly one of wins and losses has grown, by one. *)
Theorem overallStats_linked `{Binary64} {G : Type} `{!NumpyRandom G}
    (bandit_count trial_count : Z) (g : G) :
  2 <= bandit_count ->
  exists the_bandits banditStats overallStats g',
    main bandit_count trial_count g =
    Ok (the_bandits, (banditStats, overallStats, g')) /\
    forall (i : nat) (r prev : OverallStat.t),
      overallStats !! i = Some r ->
      record_before overallStats i prev ->
      exists x : Q,
        0 <= OverallStat.bandit r < bandit_count /\
        Bandits_regret the_bandits (OverallStat.bandit r) = Ok x /\
        OverallStat.regret r = fadd (OverallStat.regret prev) x /\
        ((OverallStat.wins r = OverallStat.wins prev + 1 /\
          OverallStat.losses r = OverallStat.losses prev) \/
         (OverallStat.wins r = OverallStat.wins prev /\
          OverallStat.losses r = OverallStat.losses prev + 1)).
Proof.
  intros Hcount.
  destruct (main_runs_linked bandit_count trial_count g Hcount)
    as (b & bs & os & g' & Hmain & _ & _ & Hsize & Hinv & Hlinked).
  exists b, bs, os, g'. split; [exact Hmain|].
  intros i r prev Hr Hbefore.
  destruct (Hlinked i r prev) as (p & rewarded & Hp & Heq);
    [eapply lookup_lt_Some, Hr|exact Hr|exact Hbefore|].
  assert (Hrange : 0 <= OverallStat.bandit r < bandit_count).
  { rewrite <- Hsize. apply (done_bandit _ _ _ _ _ Hinv i r); [|exact Hr].
    eapply lookup_lt_Some, Hr. }
  exists (fsub (max_prob b) p). split; [exact Hrange|]. split.
  { rewrite <- (Z2Nat.id (OverallStat.bandit r)) at 1 by lia.
    now apply Bandits_regret_in_range. }
  pose proof (f_equal OverallStat.regret Heq) as Hregret.
  pose proof (f_equal OverallStat.wins Heq) as Hwins.
  pose proof (f_equal OverallStat.losses Heq) as Hlosses.
  rewrite round_record_regret in Hregret. split; [exact Hregret|].
  destruct rewarded; cbn in Hwins, Hlosses; [left|right]; now split.
Qed.

Lemma overallStats_linked_witness :
  exists the_bandits banditStats overallStats g',
    main (G := Z) 3 6 42 = Ok (the_bandits, (banditStats, overallStats, g')) /\
    forall (i : nat) (r prev : OverallStat.t),
      overallStats !! i = Some r ->
      record_before overallStats i prev ->
      exists x : Q,
        0 <= OverallStat.bandit r < 3 /\
        Bandits_regret the_bandits (OverallStat.bandit r) = Ok x /\
        OverallStat.regret r = fadd (OverallStat.regret prev) x /\
        ((OverallStat.wins r = OverallStat.wins prev + 1 /\
          OverallStat.losses r = OverallStat.losses prev) \/
         (OverallStat.wins r = OverallStat.wins prev /\
          OverallStat.losses r = OverallStat.losses prev + 1)).
Proof.
  apply (overallStats_linked (G := Z) 3 6 42). lia.
Defined.

(** X5. The total regret in the record of round [i] is at least 0 and at
    most [i + 1], for every round up to the [2 ^ 53]-th. *)
Theorem cumulative_regret_bounds `{Binary64} {G : Type} `{!NumpyRandom G}
    (bandit_count trial_count : Z) (g : G) :
  2 <= bandit_count ->
  exists the_bandits banditStats overallStats g',
    main bandit_count trial_count g =
    Ok (the_bandits, (banditStats, overallStats, g')) /\
    forall (i : nat) (r : OverallStat.t),
      overallStats !! i = Some r ->
      Z.of_nat i + 1 <= 2 ^ 53 ->
      (0 <= OverallStat.regret r)%Q /\
      (OverallStat.regret r <= inject_Z (Z.of_nat i + 1))%Q.
Proof.
  intros Hcount.
  destruct (main_runs_linked bandit_count trial_count g Hcount)
    as (b & bs & os & g' & Hmain & Hvalid & Hunit & _ & _ & Hlinked).
  exists b, bs, os, g'. split; [exact Hmain|].
  now apply (rounds_linked_regret_bounds b os).
Qed.

Lemma cumulative_regret_bounds_witness :
  exists the_bandits banditStats overallStats g',
    main (G := Z) 3 6 42 = Ok (the_bandits, (banditStats, overallStats, g')) /\
    forall (i : nat) (r : OverallStat.t),
      overallStats !! i = Some r ->
      Z.of_nat i + 1 <= 2 ^ 53 ->
      (0 <= OverallStat.regret r)%Q /\
      (OverallStat.regret r <= inject_Z (Z.of_nat i + 1))%Q.
Proof.
  apply (cumulative_regret_bounds (G := Z) 3 6 42). lia.
Defined.

(** ** The counters of the bandits against the records *)

Lemma total_wins_insert (banditStats : list BanditStat.t) :
  forall (sel : nat) (s s' : BanditStat.t),
    banditStats !! sel = Some s ->
    total_wins (<[sel := s']> banditStats) =
    total_wins banditStats - BanditStat.wins s + BanditStat.wins s'.
Proof.
  induction banditStats as [|s0 rest IH]; intros sel s s' Hs; [discriminate|].
  destruct sel as [|k].
  - cbn in Hs. injection Hs as ->. cbn. lia.
  - change (<[S k := s']> (s0 :: rest)) with (s0 :: <[k := s']> rest).
    cbn [total_wins total_losses]. rewrite (IH k s s' Hs). lia.
Qed.

Lemma total_losses_insert (banditStats : list BanditStat.t) :
  forall (sel : nat) (s s' : BanditStat.t),
    banditStats !! sel = Some s ->
    total_losses (<[sel := s']> banditStats) =
    total_losses banditStats - BanditStat.losses s + BanditStat.losses s'.
Proof.
  induction banditStats as [|s0 rest IH]; intros sel s s' Hs; [discriminate|].
  destruct sel as [|k].
  - cbn in Hs. injection Hs as ->. cbn. lia.
  - change (<[S k := s']> (s0 :: rest)) with (s0 :: <[k := s']> rest).
    cbn [total_wins total_losses]. rewrite (IH k s s' Hs). lia.
Qed.

Lemma totals_zeros (n : nat) :
  total_wins (replicate n BanditStat.zero) = 0 /\
  total_losses (replicate n BanditStat.zero) = 0.
Proof.
  induction n as [|n [IHw IHl]]; [now split|].
  cbn. rewrite IHw, IHl. now split.
Qed.

Lemma times_selected_bounds (a : Z) (rounds : list OverallStat.t) :
  0 <= times_selected a rounds <= Z.of_nat (length rounds).
Proof.
  induction rounds as [|r rest IH]; cbn [times_selected length]; [lia|].
  destruct (OverallStat.bandit r =? a); lia.
Qed.

(** X6. At the end of a run the wins of all bandits add up to the wins in
    the last record, and their losses to its losses. *)
Theorem banditStats_totals_agree `{Binary64} {G : Type} `{!NumpyRandom G}
    (bandit_count trial_count : Z) (g : G) :
  2 <= bandit_count ->
  exists the_bandits banditStats overallStats g' r,
    main bandit_count trial_count g =
    Ok (the_bandits, (banditStats, overallStats, g')) /\
    last overallStats = Some r /\
    total_wins banditStats = OverallStat.wins r /\
    total_losses banditStats = OverallStat.losses r.
Proof.
  intros Hcount.
  destruct (main_runs_inv
              (fun _ i bs os =>
                 forall prev, record_before os i prev ->
                   total_wins bs = OverallStat.wins prev /\
                   total_losses bs = OverallStat.losses prev)
              bandit_count trial_count g Hcount)
    as (b & bs & os & g' & Hmain & Hvalid & _ & _ & Hinv & Htotals).
  - intros b _ _ prev ->. apply totals_zeros.
  - intros b i bs os gi bs' os' g' Hvalid _ Hi Hinv Htotals Hrun prev' Hbefore'.
    destruct (loop_body_inv _ _ _ _ _ _ _ _ _ Hinv Hvalid Hi Hrun)
      as (prev & sel & s & p & rewarded & Hbefore & _ & Hs & _ & -> & ->).
    cbn [record_before] in Hbefore'.
    rewrite list_lookup_insert_eq in Hbefore'
      by (rewrite (done_overall_length _ _ _ _ _ Hinv); lia).
    injection Hbefore' as <-.
    destruct (Htotals prev Hbefore) as [Hw Hl].
    rewrite (total_wins_insert _ _ _ _ Hs), (total_losses_insert _ _ _ _ Hs).
    destruct rewarded; cbn; lia.
  - pose proof (done_overall_length _ _ _ _ _ Hinv) as Hlen.
    destruct (lookup_lt_is_Some_2 os (pred (length os)) ltac:(lia)) as [r Hr].
    exists b, bs, os, g', r. split; [exact Hmain|].
    split; [now rewrite last_lookup|].
    apply Htotals.
    destruct (Z.to_nat (Z.max 1 trial_count)) as [|k] eqn:Hn; [lia|].
    cbn [record_before]. now rewrite Hlen in Hr.
Qed.

Lemma banditStats_totals_agree_witness :
  exists the_bandits banditStats overallStats g' r,
    main (G := Z) 3 6 42 = Ok (the_bandits, (banditStats, overallStats, g')) /\
    last overallStats = Some r /\
    total_wins banditStats = OverallStat.wins r /\
    total_losses banditStats = OverallStat.losses r.
Proof.
  apply (banditStats_totals_agree (G := Z) 3 6 42). lia.
Defined.

(** X7. No counter of a bandit is ever negative, and at the end of a run
    the wins and losses of a bandit together are no more than the number
    of rounds. *)
Theorem banditStats_bounds `{Binary64} {G : Type} `{!NumpyRandom G}
    (bandit_count trial_count : Z) (g : G) :
  2 <= bandit_count ->
  exists the_bandits banditStats overallStats g',
    main bandit_count trial_count g =
    Ok (the_bandits, (banditStats, overallStats, g')) /\
    forall (a : nat) (s : BanditStat.t),
      banditStats !! a = Some s ->
      0 <= BanditStat.wins s /\
      0 <= BanditStat.losses s /\
      BanditStat.wins s + BanditStat.losses s <= Z.max 1 trial_count.
Proof.
  intros Hcount.
  destruct (main_runs_inv
              (fun _ _ bs _ =>
                 Forall (fun s => 0 <= BanditStat.wins s /\ 0 <= BanditStat.losses s) bs)
              bandit_count trial_count g Hcount)
    as (b & bs & os & g' & Hmain & Hvalid & _ & _ & Hinv & Hnonneg).
  - intros b _ _. unfold zeros. apply Forall_replicate. cbn. lia.
  - intros b i bs os gi bs' os' g' Hvalid _ Hi Hinv Hnonneg Hrun.
    destruct (loop_body_inv _ _ _ _ _ _ _ _ _ Hinv Hvalid Hi Hrun)
      as (prev & sel & s & p & rewarded & _ & _ & Hs & _ & -> & _).
    apply Forall_insert; [exact Hnonneg|].
    pose proof (Forall_lookup_1 _ _ _ _ Hnonneg Hs) as [Hw Hl].
    destruct rewarded; cbn; lia.
  - exists b, bs, os, g'. split; [exact Hmain|].
    intros a s Hs.
    pose proof (Forall_lookup_1 _ _ _ _ Hnonneg Hs) as [Hw Hl].
    split; [exact Hw|]. split; [exact Hl|].
    rewrite (done_pulls _ _ _ _ _ Hinv a s Hs).
    pose proof (times_selected_bounds (Z.of_nat a)
                  (take (Z.to_nat (Z.max 1 trial_count)) os)) as Hb.
    rewrite length_take in Hb. lia.
Qed.

Lemma banditStats_bounds_witness :
  exists the_bandits banditStats overallStats g',
    main (G := Z) 3 6 42 = Ok (the_bandits, (banditStats, overallStats, g')) /\
    forall (a : nat) (s : BanditStat.t),
      banditStats !! a = Some s ->
      0 <= BanditStat.wins s /\
      0 <= BanditStat.losses s /\
      BanditStat.wins s + BanditStat.losses s <= Z.max 1 6.
Proof.
  apply (banditStats_bounds (G := Z) 3 6 42). lia.
Defined.

(** ** The exceptions of the script *)

(** X9. The only exception the script raises is the [ValueError] for
    fewer than two bandits, and it raises it whatever the trial count;
    in particular no run raises [IndexError]. *)
Theorem main_raises_iff `{Binary64} {G : Type} `{!NumpyRandom G}
    (bandit_count trial_count : Z) (g : G) (e : exn) :
  main bandit_count trial_count g = Raise e <->
  e = ValueError /\ bandit_count < 2.
Proof.
  split.
  - intros Hraise. destruct (Z_lt_le_dec bandit_count 2) as [Hlow|Hcount].
    + split; [|exact Hlow]. revert Hraise. unfold main, Bandits_init.
      destruct (Z.ltb_spec bandit_count 2) as [_|?]; [|lia].
      cbn [bind]. congruence.
    + destruct (main_runs bandit_count trial_count g Hcount)
        as (b & bs & os & g' & Hmain & _). congruence.
  - intros [-> Hlow]. unfold main, Bandits_init.
    destruct (Z.ltb_spec bandit_count 2) as [_|?]; [reflexivity|lia].
Qed.

Lemma main_raises_iff_witness :
  main (G := Z) 1 10 42 = Raise ValueError.
Proof.
  apply (main_raises_iff (G := Z) 1 10 42 ValueError). split; [reflexivity|lia].
Defined.

(** ** One more trial *)

Section Extend.
Context `{Binary64} {G : Type} `{!NumpyRandom G}.

Lemma loop_app (the_bandits : Bandits) (l1 l2 : list Z) :
  forall st : loop_state G,
    loop the_bandits (l1 ++ l2) st =
    (do st1 <- loop the_bandits l1 st; loop the_bandits l2 st1).
Proof.
  induction l1 as [|i l1 IH]; intros st; cbn [app loop bind]; [reflexivity|].
  destruct (loop_body the_bandits i st) as [st1|e]; cbn [bind]; [apply IH|reflexivity].
Qed.

(** A round reads and writes the records up to its own only: records that
    follow in the array are carried along untouched. *)
Lemma loop_body_extend the_bandits (i : nat) banditStats overallStats
    (ext : list OverallStat.t) (g : G) banditStats' overallStats' g' :
  length banditStats = length (bandits the_bandits) ->
  banditStats <> [] ->
  (i < length overallStats)%nat ->
  loop_body the_bandits (Z.of_nat i) (banditStats, overallStats, g) =
  Ok (banditStats', overallStats', g') ->
  loop_body the_bandits (Z.of_nat i) (banditStats, overallStats ++ ext, g) =
  Ok (banditStats', overallStats' ++ ext, g').
Proof.
  intros Hlen Hne Hi Hrun.
  destruct (lookup_lt_is_Some_2 overallStats (pred i) ltac:(lia)) as [prev Hprev].
  destruct (loop_body_spec the_bandits i banditStats overallStats g prev
              Hlen Hne Hi Hprev) as (sel & s & p & Hsel & Hs & Hp & Hspec).
  destruct (loop_body_spec the_bandits i banditStats (overallStats ++ ext) g prev
              Hlen Hne) as (sel' & s' & p' & Hsel' & Hs' & Hp' & Hspec').
  { rewrite length_app. lia. }
  { now apply lookup_app_l_Some. }
  assert (sel' = sel) as -> by (rewrite Hsel in Hsel'; injection Hsel'; lia).
  assert (s' = s) as -> by congruence.
  assert (p' = p) as -> by congruence.
  cbv zeta in Hspec, Hspec'. rewrite Hspec in Hrun. injection Hrun as <- <- <-.
  rewrite Hspec'. now rewrite insert_app_l.
Qed.

Lemma loop_extend the_bandits n (ext : list OverallStat.t) :
  Bandits_valid the_bandits ->
  forall (m i : nat) banditStats overallStats (g : G)
         banditStats' overallStats' g',
    (i + m <= n)%nat ->
    rounds_done the_bandits n i banditStats overallStats ->
    loop the_bandits (map Z.of_nat (seq i m)) (banditStats, overallStats, g) =
    Ok (banditStats', overallStats', g') ->
    loop the_bandits (map Z.of_nat (seq i m))
      (banditStats, overallStats ++ ext, g) =
    Ok (banditStats', overallStats' ++ ext, g').
Proof.
  intros Hvalid. induction m as [|m IH];
    intros i bs os g bs' os' g' Hle Hinv Hloop.
  - cbn [seq map loop] in *. now injection Hloop as <- <- <-.
  - destruct (rounds_done_step _ _ _ _ _ g Hvalid Hinv)
      as (bs1 & os1 & g1 & Hstep & Hinv1); [lia|].
    cbn [seq map loop] in *. rewrite Hstep in Hloop. cbn [bind] in Hloop.
    pose proof (done_stats_length _ _ _ _ _ Hinv) as Hlen.
    assert (Hext : loop_body the_bandits (Z.of_nat i) (bs, os ++ ext, g) =
                   Ok (bs1, os1 ++ ext, g1)).
    { apply loop_body_extend; [exact Hlen| | |exact Hstep].
      - destruct Hvalid as [Hb _]. intros ->. cbn in Hlen.
        destruct (bandits the_bandits); [congruence|discriminate].
      - rewrite (done_overall_length _ _ _ _ _ Hinv). lia. }
    rewrite Hext. cbn [bind].
    apply (IH (S i)); [lia|exact Hinv1|exact Hloop].
Qed.

End Extend.

(** X8. Asking for one more trial changes nothing in the rounds already
    there: the run on [n + 1] trials has the records of the run on [n]
    trials, in order, followed by one more record, the same bandits, and
    the counters of the shorter run with one more pull of one bandit. *)
Theorem main_one_more_trial `{Binary64} {G : Type} `{!NumpyRandom G}
    (bandit_count n : Z) (g : G) :
  2 <= bandit_count ->
  1 <= n ->
  exists the_bandits banditStats overallStats g'
         (sel : nat) (s : BanditStat.t) (rewarded : bool)
         (r : OverallStat.t) g'',
    main bandit_count n g = Ok (the_bandits, (banditStats, overallStats, g')) /\
    banditStats !! sel = Some s /\
    main bandit_count (n + 1) g =
    Ok (the_bandits,
        (<[sel := if rewarded then BanditStat.add_win s else BanditStat.add_loss s]>
           banditStats,
         overallStats ++ [r], g'')).
Proof.
  intros Hcount Hn.
  destruct (Bandits_init_ok bandit_count g Hcount) as (b & Hinit & Hb & Hvalid).
  assert (Hsize : bandits_size b = bandit_count).
  { unfold bandits_size. rewrite Hb.
    destruct (random_sample_spec (Z.to_nat bandit_count) g) as [-> _]. lia. }
  set (g1 := snd (random_sample (Z.to_nat bandit_count) g)) in *.
  pose proof (rounds_done_start b n) as Hstart. rewrite Hsize in Hstart.
  destruct (loop_rounds_done b (Z.to_nat n) Hvalid (Z.to_nat n) 0 _ _ g1
              ltac:(lia) Hstart) as (bs & os & g' & Hloop & Hinv).
  cbn [Nat.add] in Hinv.
  pose proof (done_overall_length _ _ _ _ _ Hinv) as Hlen_o.
  pose proof (done_stats_length _ _ _ _ _ Hinv) as Hlen_s.
  pose proof (loop_extend b (Z.to_nat n) [OverallStat.zero] Hvalid
                (Z.to_nat n) 0 _ _ g1 bs os g' ltac:(lia) Hstart Hloop) as Hlong.
  assert (Hne : bs <> []).
  { destruct Hvalid as [Hnil _]. intros ->. cbn in Hlen_s.
    destruct (bandits b); [congruence|discriminate]. }
  destruct (lookup_lt_is_Some_2 (os ++ [OverallStat.zero]) (pred (Z.to_nat n)))
    as [prev Hprev].
  { rewrite length_app, Hlen_o. cbn. lia. }
  destruct (loop_body_spec b (Z.to_nat n) bs (os ++ [OverallStat.zero]) g' prev
              Hlen_s Hne) as (sel & s & p & _ & Hs & _ & Hlast);
    [rewrite length_app, Hlen_o; cbn; lia|exact Hprev|].
  cbv zeta in Hlast.
  rewrite insert_app_r_alt in Hlast by lia.
  rewrite Hlen_o, Nat.sub_diag in Hlast.
  change (<[0%nat := ?x]> [OverallStat.zero]) with [x] in Hlast.
  exists b, bs, os, g', sel, s. do 3 eexists.
  split; [|split; [exact Hs|]].
  - unfold main. destruct (Z.ltb_spec n 1) as [?|_]; [lia|].
    rewrite Hinit. cbn [bind]. unfold range. fold g1. now rewrite Hloop.
  - unfold main. destruct (Z.ltb_spec (n + 1) 1) as [?|_]; [lia|].
    rewrite Hinit. cbn [bind]. unfold range, zeros. fold g1.
    replace (Z.to_nat (n + 1)) with (S (Z.to_nat n)) by lia.
    rewrite seq_S, map_app, replicate_S_end, loop_app. cbn [Nat.add map].
    unfold zeros in Hlong. rewrite Hlong. cbn [bind loop].
    rewrite Hlast. cbn [bind]. reflexivity.
Qed.

Lemma main_one_more_trial_witness :
  exists the_bandits banditStats overallStats g'
         (sel : nat) (s : BanditStat.t) (rewarded : bool)
         (r : OverallStat.t) g'',
    main (G := Z) 3 4 42 = Ok (the_bandits, (banditStats, overallStats, g')) /\
    banditStats !! sel = Some s /\
    main (G := Z) 3 (4 + 1) 42 =
    Ok (the_bandits,
        (<[sel := if rewarded then BanditStat.add_win s else BanditStat.add_loss s]>
           banditStats,
         overallStats ++ [r], g'')).
Proof.
  apply (main_one_more_trial (G := Z) 3 4 42); lia.
Defined.
